(** * Swap Type plugin (src/main.js): selection analysis and swap control

    A shallow embedding of the plugin's closure state, of its pure array
    computations and of its asynchronous handlers, followed by the
    properties of the specification that were checked against it.

    Conventions.
    - Item identifiers, folder identifiers and tag labels are JavaScript
      strings (the types of the Eagle API); they are modelled by [string],
      ordered as [sort()] orders strings. The [id] of a folder object may be
      the empty string. Folder objects obtained at different times (two
      answers of the host, or the object literals of two fallbacks) are
      different objects.
    - A JavaScript array is a [seq]; [arr.length] is [size arr].
    - The four [let] variables of [plugin] form the record [State].
    - Console, DOM and dialog effects are recorded as [output] values. A
      [console.log(label, value)] is recorded by its label. The DOM nodes
      created by [initializeUI] are taken to exist, so every [if (element)]
      guard around a DOM update succeeds.
    - An [async] function is a program [Prog]: a tree of reads and writes
      of the state, outputs and awaits. [run] executes a handler against a
      host that settles its calls at once; [step] executes the handlers of
      the event loop one stretch at a time, interleaved at their awaits. *)

Set Warnings "-notation-overridden,-rewrite-rw".
From HB Require Import structures.
From Stdlib Require Import String Ascii NArith DecimalString Lia.
From mathcomp Require Import ssreflect ssrfun ssrbool eqtype ssrnat seq path.

Set Implicit Arguments.
Unset Strict Implicit.
Unset Printing Implicit Defensive.

Local Open Scope string_scope.
Local Open Scope seq_scope.

(** ** JavaScript strings *)

HB.instance Definition _ := hasDecEq.Build string String.eqb_spec.

(** An identifier or label. *)
Definition ident := string.

(** The order used by [Array.prototype.sort] without a comparator: the
    elements are compared as strings, unit by unit. The units are 8-bit
    characters here and 16-bit code units in JavaScript, which makes no
    difference for ASCII text; the change tests use the order only to
    bring the reorderings of an array to one form. *)
Definition str_le : rel string := String.leb.

(** ** Array helpers *)

Section Arrays.
Variable T : eqType.

(** [arr[index]]: [None] stands for [undefined] (index out of range). *)
Fixpoint at_index (arr : seq T) (index : nat) : option T :=
  match arr, index with
  | [::], _ => None
  | val :: _, 0 => Some val
  | _ :: rest, index'.+1 => at_index rest index'
  end.

(** [arr.every((val, index) => p(val, index))], scanning from [index]. *)
Fixpoint every_from (p : T -> nat -> bool) (index : nat) (arr : seq T) : bool :=
  match arr with
  | [::] => true
  | val :: rest => p val index && every_from p index.+1 rest
  end.

Definition every (p : T -> nat -> bool) (arr : seq T) : bool :=
  every_from p 0 arr.

(** main.js, lines 206-209. *)
Definition arraysEqual (arr1 arr2 : seq T) : bool :=
  if size arr1 != size arr2 then false
  else every (fun val index => Some val == at_index arr2 index) arr1.

End Arrays.

(** [arr.sort()] on an array of strings. *)
Definition jsSort (arr : seq ident) : seq ident := sort str_le arr.

(** The change test of [refreshData] on item identifiers and on tags
    (lines 131-133, 169-171): both arrays are sorted, then compared with
    [arraysEqual]. *)
Definition hasChanged (previous current : seq ident) : bool :=
  ~~ arraysEqual (jsSort previous) (jsSort current).

(** ** Data model *)

(** An item of the host library. [item.folders] and [item.tags] may be
    absent or [null]: [None]. *)
Record Item := mkItem {
  item_id : ident;
  item_folders : option (seq ident);
  item_tags : option (seq ident)
}.

(** A folder object, as returned by [eagle.folder.getByIds] or built by the
    fallback of [findCommonFoldersAndTags]. *)
Record Folder := mkFolder {
  folder_id : ident;
  folder_name : string
}.

(** The outcome of a bulk swap of the host SDK. *)
Record SwapResult := mkSwapResult {
  success : bool;
  processedCount : nat;
  errors : seq string
}.

(** A thrown value, by what reading its [message] property does. Reading
    a property of [null] or [undefined] raises a [TypeError], whose message
    is the engine's: [complaint]. Any other value has a [message], given as
    the text a template literal shows for it, or has none ([None]: the
    property reads as [undefined]), as a string, a number or an object
    without that field. *)
Inductive error :=
| Nullish (complaint : string)
| Thrown (message : option string).

(** An [Error] object with the given message. *)
Definition errorWith (message : string) : error := Thrown (Some message).

(** The plugin state (main.js, lines 11-14). *)
Record State := mkState {
  selectedItems : seq Item;
  commonFolders : seq Folder;
  commonTags : seq ident;
  isRefreshing : bool
}.

Definition initialState : State := mkState [::] [::] [::] false.

(** An assignment to one of the four state variables. *)
Inductive assignment :=
| SetSelectedItems (v : seq Item)
| SetCommonFolders (v : seq Folder)
| SetCommonTags (v : seq ident)
| SetIsRefreshing (v : bool).

Definition assign (a : assignment) (s : State) : State :=
  match a with
  | SetSelectedItems v => mkState v (commonFolders s) (commonTags s) (isRefreshing s)
  | SetCommonFolders v => mkState (selectedItems s) v (commonTags s) (isRefreshing s)
  | SetCommonTags v => mkState (selectedItems s) (commonFolders s) v (isRefreshing s)
  | SetIsRefreshing v => mkState (selectedItems s) (commonFolders s) (commonTags s) v
  end.

(** Effects on the console, the DOM and the dialogs. *)
Inductive output :=
| ConsoleLog (msg : string)
| ConsoleError (msg : string) (err : error)
| Alert (msg : string)
| LoadingIndicator (visible : bool)
| ItemCount (n : nat)
| DisplayNoSelection
| DisplayFolders (folders : seq Folder)
| DisplayTags (tags : seq ident)
| FoldersProcessing
| TagsProcessing.

(** Asynchronous calls to the host. *)
Inductive request :=
| GetSelected
| GetByIds (ids : seq ident)
| SwapTagToFolder (tagName : ident) (items : seq Item)
| SwapFolderToTag (folder : Folder) (items : seq Item).

(** The value a fulfilled call resolves to; [eagle.item.getSelected] may
    resolve to [null] or [undefined]: [None]. *)
Definition reply (r : request) : Type :=
  match r with
  | GetSelected => option (seq Item)
  | GetByIds _ => seq Folder
  | SwapTagToFolder _ _ => SwapResult
  | SwapFolderToTag _ _ => SwapResult
  end.

(** A settled promise: rejected with an error or fulfilled with a value. *)
Definition settled (r : request) : Type := (error + reply r)%type.

(** ** Handlers as programs *)

(** A handler is a tree of state reads, assignments, outputs and awaits,
    ending in a returned value or a thrown error. [Await] is the [await] of
    a host call; [Yield] is the pause of an [await] on a promise that is
    already settled, after which the handler goes on as soon as the event
    loop lets it. *)
Inductive Prog (A : Type) : Type :=
| Ret (a : A)
| Throw (e : error)
| Read (k : State -> Prog A)
| Assign (a : assignment) (k : Prog A)
| Emit (o : output) (k : Prog A)
| Await (r : request) (k : settled r -> Prog A)
| Yield (k : Prog A).

Arguments Ret {A} a.
Arguments Throw {A} e.
Arguments Read {A} k.
Arguments Assign {A} a k.
Arguments Emit {A} o k.
Arguments Await {A} r k.
Arguments Yield {A} k.

Fixpoint bind {A B : Type} (p : Prog A) (f : A -> Prog B) : Prog B :=
  match p with
  | Ret a => f a
  | Throw e => Throw e
  | Read k => Read (fun s => bind (k s) f)
  | Assign a k => Assign a (bind k f)
  | Emit o k => Emit o (bind k f)
  | Await r k => Await r (fun x => bind (k x) f)
  | Yield k => Yield (bind k f)
  end.

Notation "x <-- p ;; q" := (bind p (fun x => q))
  (at level 61, p at next level, right associativity).
Notation "p ;; q" := (bind p (fun _ => q))
  (at level 61, right associativity).

(** [try { p } catch (error) { handler error }] *)
Fixpoint try_catch {A : Type} (p : Prog A) (handler : error -> Prog A) : Prog A :=
  match p with
  | Ret a => Ret a
  | Throw e => handler e
  | Read k => Read (fun s => try_catch (k s) handler)
  | Assign a k => Assign a (try_catch k handler)
  | Emit o k => Emit o (try_catch k handler)
  | Await r k => Await r (fun x => try_catch (k x) handler)
  | Yield k => Yield (try_catch k handler)
  end.

(** [try { p } finally { fin }]: [fin] runs on return and on throw. *)
Fixpoint try_finally {A : Type} (p : Prog A) (fin : Prog unit) : Prog A :=
  match p with
  | Ret a => fin ;; Ret a
  | Throw e => fin ;; Throw e
  | Read k => Read (fun s => try_finally (k s) fin)
  | Assign a k => Assign a (try_finally k fin)
  | Emit o k => Emit o (try_finally k fin)
  | Await r k => Await r (fun x => try_finally (k x) fin)
  | Yield k => Yield (try_finally k fin)
  end.

Definition get : Prog State := Read Ret.
Definition store (a : assignment) : Prog unit := Assign a (Ret tt).
Definition emit (o : output) : Prog unit := Emit o (Ret tt).
Definition log (msg : string) : Prog unit := emit (ConsoleLog msg).

(** [await call]: the value of a fulfilled call; a rejection is thrown. *)
Definition await (r : request) : Prog (reply r) :=
  Await r (fun x => match x with inl e => Throw e | inr v => Ret v end).

(** [await f()] for an [async] function [f] of the plugin: the body of [f]
    runs in place; when it has returned or thrown, the caller pauses, then
    goes on with the result. *)
Definition awaitAsync (A : Type) (f : Prog A) : Prog A :=
  try_catch (x <-- f ;; Yield (Ret x)) (fun e => Yield (Throw e)).

(** ** The handlers of main.js *)

(** [field || []] *)
Definition orEmpty (T : Type) (field : option (seq T)) : seq T :=
  if field is Some arr then arr else [::].

(** [all[0].filter(x => all.every(arr => arr.includes(x)))], the expression
    of lines 227-231 (folders) and 255-259 (tags). [all[0]] is only
    evaluated under the guard [all.length > 0]. *)
Definition inEvery (arrays : seq (seq ident)) : seq ident :=
  [seq x <- head [::] arrays | all (fun arr => x \in arr) arrays].

Arguments inEvery : simpl never.

(** The fallback folder object of line 244. *)
Definition mockFolder (id : ident) : Folder :=
  mkFolder id (String.append "Folder " id).

(** main.js, lines 211-263. *)
Definition findCommonFoldersAndTags : Prog unit :=
  st <-- get ;;
  if size (selectedItems st) == 0 then
    store (SetCommonFolders [::]) ;;
    store (SetCommonTags [::])
  else
    let allFolders := [seq orEmpty (item_folders item) | item <- selectedItems st] in
    let allTags := [seq orEmpty (item_tags item) | item <- selectedItems st] in
    log "Debug - All folders from items:" ;;
    log "Debug - Sample item structure:" ;;
    (if 0 < size allFolders then
       let commonFolderIds := inEvery allFolders in
       log "Debug - Common folder IDs:" ;;
       if 0 < size commonFolderIds then
         try_catch
           (log "Debug - Calling eagle.folder.getByIds with:" ;;
            folders <-- await (GetByIds commonFolderIds) ;;
            store (SetCommonFolders folders) ;;
            log "Debug - Response from eagle.folder.getByIds:")
           (fun error =>
              emit (ConsoleError "Error getting folder objects:" error) ;;
              store (SetCommonFolders [seq mockFolder id | id <- commonFolderIds]))
       else
         store (SetCommonFolders [::])
     else
       store (SetCommonFolders [::])) ;;
    (if 0 < size allTags then
       store (SetCommonTags (inEvery allTags))
     else
       store (SetCommonTags [::])).

(** main.js, lines 265-276. *)
Definition displayNoSelection : Prog unit := emit DisplayNoSelection.

(** main.js, lines 278-311: the folder badges are rebuilt from
    [commonFolders]. The debug line logged for each folder while the badges
    are built is not recorded. *)
Definition displayFolders : Prog unit :=
  st <-- get ;; emit (DisplayFolders (commonFolders st)).

(** main.js, lines 313-344. *)
Definition displayTags : Prog unit :=
  st <-- get ;; emit (DisplayTags (commonTags st)).

(** [if (c) { p }] *)
Definition when (c : bool) (p : Prog unit) : Prog unit :=
  if c then p else Ret tt.

(** The [finally] block of [refreshData] (lines 196-203). *)
Definition refreshFinally : Prog unit :=
  store (SetIsRefreshing false) ;;
  emit (LoadingIndicator false).

(** [f.id || f] (lines 165-166): the [id] of a folder object, or the object
    itself when its [id] is the empty string, which is falsy. *)
Inductive folderKey :=
| KeyId (id : ident)
| KeyObject (f : Folder).

Definition idOrSelf (f : Folder) : folderKey :=
  if folder_id f == "" then KeyObject f else KeyId (folder_id f).

(** [sort()] orders the keys by their strings; an object is ordered as the
    string ["[object Object]"]. The sort is stable. *)
Definition keyString (key : folderKey) : string :=
  match key with
  | KeyId id => id
  | KeyObject _ => "[object Object]"
  end.

Definition sortKeys (keys : seq folderKey) : seq folderKey :=
  sort (fun key1 key2 => str_le (keyString key1) (keyString key2)) keys.

(** [val === arr2[index]] for a key of the previous folders and a key of the
    current ones: two strings are equal when they have the same characters;
    an object is equal to no string and to no other object, and the current
    folder objects are new ones, since [findCommonFoldersAndTags] has just
    assigned to [commonFolders] the answer of its lookup or the fallback
    objects it built. *)
Definition strictEq (previous current : folderKey) : bool :=
  match previous, current with
  | KeyId id1, KeyId id2 => id1 == id2
  | _, _ => false
  end.

Definition folder_to_pair (f : Folder) := (folder_id f, folder_name f).
Definition pair_to_folder (p : ident * string) : Folder := mkFolder p.1 p.2.
Lemma folder_pairK : cancel folder_to_pair pair_to_folder.
Proof. by case. Qed.

#[warning="-redundant-canonical-projection"]
HB.instance Definition _ := Equality.copy Folder (can_type folder_pairK).

Definition key_to_sum (key : folderKey) : ident + Folder :=
  match key with KeyId id => inl id | KeyObject f => inr f end.
Definition sum_to_key (x : ident + Folder) : folderKey :=
  match x with inl id => KeyId id | inr f => KeyObject f end.
Lemma key_sumK : cancel key_to_sum sum_to_key.
Proof. by case. Qed.

#[warning="-redundant-canonical-projection"]
HB.instance Definition _ := Equality.copy folderKey (can_type key_sumK).

(** [arraysEqual] (lines 206-209) on the sorted keys of the previous and of
    the current folders; [arr2[index]] is [undefined] out of range. *)
Definition keysEqual (arr1 arr2 : seq folderKey) : bool :=
  if size arr1 != size arr2 then false
  else every (fun val index =>
                if at_index arr2 index is Some val2 then strictEq val val2
                else false) arr1.

(** The [try] block of [refreshData] (lines 115-193). *)
Definition refreshTry : Prog unit :=
  store (SetIsRefreshing true) ;;
  emit (LoadingIndicator true) ;;
  selection <-- await GetSelected ;;
  let newSelectedItems := orEmpty selection in
  st <-- get ;;
  log "Current selection count:" ;;
  log "Previous selection count:" ;;
  let oldIds := jsSort [seq item_id item | item <- selectedItems st] in
  let newIds := jsSort [seq item_id item | item <- newSelectedItems] in
  let selectionChanged := ~~ arraysEqual oldIds newIds in
  log "Old IDs:" ;;
  log "New IDs:" ;;
  log "Selection changed:" ;;
  if ~~ selectionChanged then
    log "No selection changes detected, skipping refresh"
  else
    store (SetSelectedItems newSelectedItems) ;;
    st <-- get ;;
    emit (ItemCount (size (selectedItems st))) ;;
    if size (selectedItems st) == 0 then
      displayNoSelection
    else
      let previousFolders := commonFolders st in
      let previousTags := commonTags st in
      awaitAsync findCommonFoldersAndTags ;;
      st <-- get ;;
      let previousFolderIds := sortKeys [seq idOrSelf f | f <- previousFolders] in
      let currentFolderIds := sortKeys [seq idOrSelf f | f <- commonFolders st] in
      let foldersChanged := ~~ keysEqual previousFolderIds currentFolderIds in
      let previousTagsSorted := jsSort previousTags in
      let currentTagsSorted := jsSort (commonTags st) in
      let tagsChanged := ~~ arraysEqual previousTagsSorted currentTagsSorted in
      log "Previous folders:" ;;
      log "Current folders:" ;;
      log "Folders changed:" ;;
      log "Previous tags:" ;;
      log "Current tags:" ;;
      log "Tags changed:" ;;
      when foldersChanged
        (log "Folders changed, updating display" ;; displayFolders) ;;
      when tagsChanged
        (log "Tags changed, updating display" ;; displayTags) ;;
      when (~~ foldersChanged && ~~ tagsChanged)
        (log "No folder/tag changes detected, UI unchanged").

(** main.js, lines 108-204. *)
Definition refreshData : Prog unit :=
  st <-- get ;;
  if isRefreshing st then
    log "Refresh already in progress, skipping"
  else
    try_finally
      (try_catch refreshTry
         (fun error => emit (ConsoleError "Error refreshing data:" error)))
      refreshFinally.

(** *** Dialog messages *)

(** Template literals: the concatenation of their parts. *)
Definition template (parts : seq string) : string :=
  foldr String.append "" parts.

(** [`${n}`] for a non-negative integer. *)
Definition showNat (n : nat) : string :=
  NilZero.string_of_uint (Nat.to_uint n).

Definition quote : string := String "034"%char EmptyString.
Definition newline : string := String "010"%char EmptyString.

(** Line 363 (and 392): the message of a swap that reported failures. *)
Definition swapErrorsMessage (result : SwapResult) : string :=
  template [:: "Swap Completed with Errors: Processed ";
               showNat (processedCount result);
               " items successfully, but encountered ";
               showNat (size (errors result));
               " errors:"; newline; newline;
               String.concat newline (take 3 (errors result));
               if 3 < size (errors result) then String.append newline "..." else ""].

(** Lines 360-364. *)
Definition tagSwapMessage (tagName : ident) (result : SwapResult) : string :=
  if success result then
    template [:: "Swap Complete: Successfully moved ";
                 showNat (processedCount result);
                 " items to folder "; quote; tagName; quote;
                 " and removed "; quote; tagName; quote; " tag."]
  else swapErrorsMessage result.

(** Lines 389-393. *)
Definition folderSwapMessage (folder : Folder) (result : SwapResult) : string :=
  if success result then
    template [:: "Swap Complete: Successfully moved ";
                 showNat (processedCount result);
                 " items from folder "; quote; folder_name folder; quote;
                 " and added "; quote; folder_name folder; quote; " as a tag."]
  else swapErrorsMessage result.

(** [`${error.message}`] in the [catch] blocks of the swap handlers (lines
    371 and 400): the message, the text of [undefined] when the thrown value
    has none, and a [TypeError] when the thrown value is [null] or
    [undefined]. *)
Definition messageOf (e : error) : Prog string :=
  match e with
  | Nullish complaint => Throw (errorWith complaint)
  | Thrown (Some message) => Ret message
  | Thrown None => Ret "undefined"
  end.

(** main.js, lines 346-373. The empty string is the only falsy tag. *)
Definition swapTagToFolder (tagName : ident) : Prog unit :=
  if tagName == "" then Ret tt
  else
    try_catch
      (emit FoldersProcessing ;;
       st <-- get ;;
       result <-- await (SwapTagToFolder tagName (selectedItems st)) ;;
       emit (Alert (tagSwapMessage tagName result)) ;;
       awaitAsync refreshData)
      (fun error =>
         emit (ConsoleError "Error in swapTagToFolder:" error) ;;
         message <-- messageOf error ;;
         emit (Alert (String.append "Swap Failed: Failed to swap tag to folder: " message))).

(** main.js, lines 375-402. A folder object is truthy, so the guard
    [if (!folder) return] is passed. *)
Definition swapFolderToTag (folder : Folder) : Prog unit :=
  try_catch
    (emit TagsProcessing ;;
     st <-- get ;;
     result <-- await (SwapFolderToTag folder (selectedItems st)) ;;
     emit (Alert (folderSwapMessage folder result)) ;;
     awaitAsync refreshData)
    (fun error =>
       emit (ConsoleError "Error in swapFolderToTag:" error) ;;
       message <-- messageOf error ;;
       emit (Alert (String.append "Swap Failed: Failed to swap folder to tag: " message))).

(** ** Running a handler against a host *)

(** What a run leaves behind, in order: outputs, host calls, assignments. *)
Inductive event :=
| Did (o : output)
| Called (r : request)
| Wrote (a : assignment).

(** A host settles every call. No handler issues the same call twice, so a
    function of the call describes the host during one run. *)
Definition host := forall r : request, settled r.

Record outcome (A : Type) := mkOutcome {
  final : State;
  trace : seq event;
  value : error + A
}.

Definition after (A : Type) (ev : event) (o : outcome A) : outcome A :=
  mkOutcome (final o) (ev :: trace o) (value o).

(** The handler runs to completion, every awaited call being settled by
    the host before anything else happens. *)
Fixpoint run (A : Type) (h : host) (p : Prog A) (s : State) : outcome A :=
  match p with
  | Ret a => mkOutcome s [::] (inr a)
  | Throw e => mkOutcome s [::] (inl e)
  | Read k => run h (k s) s
  | Assign a k => after (Wrote a) (run h k (assign a s))
  | Emit o k => after (Did o) (run h k s)
  | Await r k => after (Called r) (run h (k (h r)) s)
  | Yield k => run h k s
  end.

(** Host calls and assignments of a trace. *)
Definition calls (tr : seq event) : seq request :=
  pmap (fun ev => if ev is Called r then Some r else None) tr.

Definition writes (tr : seq event) : seq assignment :=
  pmap (fun ev => if ev is Wrote a then Some a else None) tr.

Definition outputs (tr : seq event) : seq output :=
  pmap (fun ev => if ev is Did o then Some o else None) tr.

(** ** The event loop *)

(** Where a handler stands after running without interruption: finished,
    suspended at an awaited host call, or paused by another [await]. *)
Inductive paused (A : Type) : Type :=
| Finished (v : error + A)
| Suspended (r : request) (k : settled r -> Prog A)
| Yielded (k : Prog A).

Arguments Finished {A} v.
Arguments Suspended {A} r k.
Arguments Yielded {A} k.

Record segment (A : Type) := mkSegment {
  reached : State;
  emitted : seq event;
  next : paused A
}.

Definition emitting (A : Type) (ev : event) (g : segment A) : segment A :=
  mkSegment (reached g) (ev :: emitted g) (next g).

(** JavaScript runs a handler up to its next [await] before anything else
    can happen. *)
Fixpoint sync (A : Type) (p : Prog A) (s : State) : segment A :=
  match p with
  | Ret a => mkSegment s [::] (Finished (inr a))
  | Throw e => mkSegment s [::] (Finished (inl e))
  | Read k => sync (k s) s
  | Assign a k => emitting (Wrote a) (sync k (assign a s))
  | Emit o k => emitting (Did o) (sync k s)
  | Await r k => mkSegment s [:: Called r] (Suspended r k)
  | Yield k => mkSegment s [::] (Yielded k)
  end.




(** The value of [inCycle] after the events [tr]: the last value written
    to [isRefreshing], if any. *)
Definition cycleAfter (tr : seq event) (before : bool) : bool :=
  foldl (fun b ev => if ev is Wrote (SetIsRefreshing v) then v else b) before tr.






(** ** Notions used to state the properties *)

(** Set equality of two arrays, as a boolean. *)
Definition same_set (A B : seq ident) : bool :=
  all [in B] A && all [in A] B.

(** The events [tr] happened before the run [o]. *)
Definition prefixed (A : Type) (tr : seq event) (o : outcome A) : outcome A :=
  mkOutcome (final o) (tr ++ trace o) (value o).

Definition allFolders (st : State) : seq (seq ident) :=
  [seq orEmpty (item_folders item) | item <- selectedItems st].

Definition allTags (st : State) : seq (seq ident) :=
  [seq orEmpty (item_tags item) | item <- selectedItems st].

(** What [commonFolders] becomes for the surviving identifiers [ids]: the
    host is only asked when there are some, and its failure is replaced by
    the fallback objects. *)
Definition resolved (h : host) (ids : seq ident) : seq Folder :=
  if 0 < size ids then
    match h (GetByIds ids) with
    | inr folders => folders
    | inl _ => [seq mockFolder id | id <- ids]
    end
  else [::].

Definition foldersOf (item : Item) : seq ident := orEmpty (item_folders item).
Definition tagsOf (item : Item) : seq ident := orEmpty (item_tags item).

(** [ids] is exactly the intersection of the collections [collection item]
    of the selected [items]: its entries belong to the collection of every
    item, and whatever is not among them is missing from the collection of
    some item. *)
Definition intersectionOf (items : seq Item) (collection : Item -> seq ident)
    (ids : seq ident) : Prop :=
  (forall id, id \in ids ->
     forall item, List.In item items -> id \in collection item) /\
  (forall id, id \notin ids ->
     exists item, List.In item items /\ id \notin collection item).

(** The contract assumed of [eagle.folder.getByIds]: when it answers, the
    folder objects it returns are those of the requested identifiers. *)
Definition resolvesRequested (h : host) : Prop :=
  forall ids folders,
    h (GetByIds ids) = inr folders -> [seq folder_id f | f <- folders] =i ids.

(** A host given by its answers: to [getSelected], to [getByIds] and to
    the two swaps. *)
Definition hostOf (selected : settled GetSelected)
    (lookup : forall ids, settled (GetByIds ids))
    (swapped : error + SwapResult) : host :=
  fun r =>
    match r return settled r with
    | GetSelected => selected
    | GetByIds ids => lookup ids
    | SwapTagToFolder _ _ => swapped
    | SwapFolderToTag _ _ => swapped
    end.

(** The two bulk swaps among the host calls. *)
Definition isSwap (r : request) : bool :=
  match r with
  | SwapTagToFolder _ _ | SwapFolderToTag _ _ => true
  | GetSelected | GetByIds _ => false
  end.

(** [asksOnly P p]: every host call awaited by [p] satisfies [P]. *)
Inductive asksOnly (P : pred request) (A : Type) : Prog A -> Prop :=
| ao_ret a : asksOnly P (Ret a)
| ao_throw e : asksOnly P (Throw e)
| ao_read k : (forall s, asksOnly P (k s)) -> asksOnly P (Read k)
| ao_assign a k : asksOnly P k -> asksOnly P (Assign a k)
| ao_emit o k : asksOnly P k -> asksOnly P (Emit o k)
| ao_await r k : P r -> (forall x, asksOnly P (k x)) -> asksOnly P (Await r k)
| ao_yield k : asksOnly P k -> asksOnly P (Yield k).

(** *** The reentrancy guard *)






(** ** Further notions: what reaches the screen, which calls are made *)

(** Outputs other than console lines. *)
Definition onScreen (o : output) : bool :=
  match o with
  | ConsoleLog _ | ConsoleError _ _ => false
  | _ => true
  end.

Definition screen (tr : seq event) : seq output :=
  [seq o <- outputs tr | onScreen o].

(** The state in which [refreshData] recomputes the common sets: the
    fetched selection stored, the flag set. *)
Definition selecting (new : seq Item) (st : State) : State :=
  mkState new (commonFolders st) (commonTags st) true.

(** The folder change test of [refreshData] (lines 165-167): the keys of
    the previous and of the current folders are sorted, then compared with
    [arraysEqual]. *)
Definition foldersChanged (previous current : seq Folder) : bool :=
  ~~ keysEqual (sortKeys [seq idOrSelf f | f <- previous])
               (sortKeys [seq idOrSelf f | f <- current]).

(** A folder object without a usable [id]. *)
Definition noId (f : Folder) : bool := folder_id f == "".

Definition isId (key : folderKey) : bool :=
  if key is KeyId _ then true else false.

(** The outputs that show or hide the loading indicator. *)
Definition isIndicator (o : output) : bool :=
  if o is LoadingIndicator _ then true else false.

(** An assignment to one of the two common sets. *)
Definition commonSetWrite (a : assignment) : bool :=
  match a with
  | SetCommonFolders _ | SetCommonTags _ => true
  | SetSelectedItems _ | SetIsRefreshing _ => false
  end.

(** A folder lookup for at least one identifier. *)
Definition nonEmptyLookup (r : request) : bool :=
  if r is GetByIds ids then 0 < size ids else false.

(** Items compare by their three fields. *)
Definition item_to_tuple (item : Item) :=
  (item_id item, item_folders item, item_tags item).
Definition tuple_to_item (t : ident * option (seq ident) * option (seq ident)) : Item :=
  mkItem t.1.1 t.1.2 t.2.
Lemma item_tupleK : cancel item_to_tuple tuple_to_item.
Proof. by case. Qed.
#[warning="-redundant-canonical-projection"]
HB.instance Definition _ := Equality.copy Item (can_type item_tupleK).

(** ** Start-up *)

(** Calls to [powersdk.listeners]. *)
Inductive listenerCall :=
| RegisterCallback (eventName : string) (callback : Prog unit)
| StartItemMonitoring (interval : nat).

(** How [powersdk.listeners] answers: [None] when the call returns (or its
    promise is fulfilled), [Some e] when it throws (or rejects). *)
Definition listeners := listenerCall -> option error.

(** What start-up does, in order. *)
Inductive bootEvent :=
| Console (o : output)
| RenderShell
| Listener (c : listenerCall)
| SetInterval (callback : Prog unit) (ms : nat)
| Handled (ev : event).

(** The callback registered for ['itemChange'] (lines 91-94); the promise
    of [refreshData()] is dropped. *)
Definition itemChangeCallback : Prog unit :=
  log "Item selection change detected, refreshing immediately" ;;
  refreshData.

(** main.js, lines 86-106. *)
Definition setupStateListeners (l : listeners) : seq bootEvent :=
  let fallback error :=
    [:: Console (ConsoleError "Error setting up state listeners:" error);
        Console (ConsoleLog "Falling back to interval polling");
        SetInterval refreshData 5000] in
  Console (ConsoleLog "Setting up Eagle state listeners") ::
  Listener (RegisterCallback "itemChange" itemChangeCallback) ::
  match l (RegisterCallback "itemChange" itemChangeCallback) with
  | Some error => fallback error
  | None =>
      Listener (StartItemMonitoring 2000) ::
      match l (StartItemMonitoring 2000) with
      | Some error => fallback error
      | None =>
          [:: Console (ConsoleLog "Eagle item state listeners started successfully")]
      end
  end.

Record booted := mkBooted {
  bootState : State;
  bootEvents : seq bootEvent;
  bootValue : error + unit
}.

(** main.js, lines 19-84: the shell is rendered, then [refreshData] and
    [setupStateListeners] are awaited in turn. *)
Definition initializeUI (h : host) (l : listeners) (s : State) : booted :=
  let o := run h refreshData s in
  let loaded := RenderShell :: [seq Handled ev | ev <- trace o] in
  match value o with
  | inl e => mkBooted (final o) loaded (inl e)
  | inr _ => mkBooted (final o) (loaded ++ setupStateListeners l) (inr tt)
  end.

(** main.js, lines 5-17 and 412. *)
Definition plugin (h : host) (l : listeners) : booted :=
  let b := initializeUI h l initialState in
  mkBooted (bootState b)
    (Console (ConsoleLog "Swap Type plugin loaded") :: bootEvents b)
    (bootValue b).

(** The intervals installed, the monitorings started, the events listened
    to and the errors logged by start-up. *)
Definition intervals (evs : seq bootEvent) : seq nat :=
  pmap (fun ev => if ev is SetInterval _ ms then Some ms else None) evs.

Definition monitorings (evs : seq bootEvent) : seq nat :=
  pmap (fun ev => if ev is Listener (StartItemMonitoring ms) then Some ms else None) evs.

Definition registrations (evs : seq bootEvent) : seq string :=
  pmap (fun ev => if ev is Listener (RegisterCallback name _) then Some name else None) evs.

Definition setupErrors (evs : seq bootEvent) : seq error :=
  pmap (fun ev => if ev is Console (ConsoleError _ e) then Some e else None) evs.

(** * Proofs *)

(** ** Facts about the array helpers *)

Section ArrayFacts.
Variable T : eqType.
Implicit Types arr : seq T.

Lemma every_from_eq arr1 arr2 k pre :
  size pre = k ->
  every_from (fun val index => Some val == at_index (pre ++ arr2) index) k arr1
  = (arr1 == take (size arr1) arr2).
Proof.
elim: arr1 arr2 k pre => [|x arr1 IH] arr2 k pre Hk /=; first by rewrite take0.
have Hat : at_index (pre ++ arr2) k = ohead arr2.
  by rewrite -{}Hk; elim: pre => [|y pre IHp] //=; case: (arr2).
rewrite Hat; case: arr2 Hat => [|y arr2] Hat /=; first by [].
rewrite eqseq_cons (inj_eq (@Some_inj _)); congr (_ && _).
by rewrite -cat_rcons; apply: IH; rewrite size_rcons Hk.
Qed.

(** [arraysEqual] decides equality of the two arrays. *)
Lemma arraysEqualE arr1 arr2 : arraysEqual arr1 arr2 = (arr1 == arr2).
Proof.
rewrite /arraysEqual /every; case: (eqVneq (size arr1) (size arr2)) => [Hs|Hs] /=.
  by rewrite (@every_from_eq arr1 arr2 0 [::]) // Hs take_size.
by apply/esym/negbTE; apply: contraNneq Hs => ->.
Qed.

End ArrayFacts.

(** ** The string order is a total order *)

Lemma compare_le_trans (s2 s1 s3 : string) :
  String.compare s1 s2 <> Gt -> String.compare s2 s3 <> Gt ->
  String.compare s1 s3 <> Gt.
Proof.
elim: s1 s2 s3 => [|a s1 IH] [|b s2] [|c s3] //=.
rewrite /Ascii.compare.
case Eab: (N.compare _ _); case Ebc: (N.compare _ _) => // H12 H23;
  case Eac: (N.compare _ _) => //;
  move: Eab Ebc Eac;
  rewrite ?N.compare_eq_iff ?N.compare_lt_iff ?N.compare_gt_iff => Eab Ebc Eac;
  try lia.
exact: IH H12 H23.
Qed.

Lemma str_le_trans : transitive str_le.
Proof.
move=> s2 s1 s3; rewrite /str_le /String.leb => H12 H23.
have := @compare_le_trans s2 s1 s3.
by case: (String.compare s1 s2) H12; case: (String.compare s2 s3) H23 => // _ _;
   case: (String.compare s1 s3) => // H; case: H.
Qed.

Lemma str_le_total : total str_le.
Proof.
by move=> s1 s2; apply/orP; rewrite /str_le; case: (String.leb_total s1 s2); [left|right].
Qed.

Lemma str_le_anti : antisymmetric str_le.
Proof. by move=> s1 s2 /andP [H12 H21]; apply: String.leb_antisym. Qed.

(** ** The change test compares multisets *)

Lemma same_setP (A B : seq ident) : reflect (A =i B) (same_set A B).
Proof.
apply: (iffP andP) => [[/allP HAB /allP HBA] x|HAB].
  by apply/idP/idP; [apply: HAB | apply: HBA].
by split; apply/allP => x; rewrite HAB.
Qed.

Lemma jsSort_eq (A B : seq ident) : (jsSort A == jsSort B) = perm_eq A B.
Proof.
exact/eqP/(perm_sortP str_le_total str_le_trans str_le_anti).
Qed.

Lemma hasChangedE (A B : seq ident) : hasChanged A B = ~~ perm_eq A B.
Proof. by rewrite /hasChanged arraysEqualE jsSort_eq. Qed.

Lemma uniq_perm_same_set (A B : seq ident) :
  uniq A -> uniq B -> perm_eq A B = same_set A B.
Proof.
move=> UA UB; apply/idP/same_setP; first exact: perm_mem.
exact: uniq_perm.
Qed.

(** ** The folder change test *)

Lemma every_from_andb (T : eqType) (p : T -> nat -> bool) (q : pred T) k arr :
  every_from (fun val index => p val index && q val) k arr
  = every_from p k arr && all q arr.
Proof.
elim: arr k => [|x arr IH] k //=.
by rewrite IH -!andbA; congr (_ && _); rewrite andbCA.
Qed.

Lemma eq_every_from (T : eqType) (p p' : T -> nat -> bool) k arr :
  (forall val index, p val index = p' val index) ->
  every_from p k arr = every_from p' k arr.
Proof. by move=> E; elim: arr k => [|x arr IH] k //=; rewrite E IH. Qed.

Lemma strictEqE (val : folderKey) (x : option folderKey) :
  (if x is Some val2 then strictEq val val2 else false)
  = (Some val == x) && isId val.
Proof.
case: x => [val2|]; last by [].
by case: val => [id1|f1]; case: val2 => [id2|f2] //=; rewrite ?andbT ?andbF.
Qed.

(** Two arrays of keys pass the comparison when they hold the same strings
    and no object. *)
Lemma keysEqualE (arr1 arr2 : seq folderKey) :
  keysEqual arr1 arr2 = (arr1 == arr2) && all isId arr1.
Proof.
rewrite /keysEqual -arraysEqualE /arraysEqual /every.
case: (size arr1 != size arr2) => //.
by rewrite -every_from_andb; apply: eq_every_from => val index; exact: strictEqE.
Qed.

Lemma all_isId (fs : seq Folder) :
  all isId [seq idOrSelf f | f <- fs] = ~~ has noId fs.
Proof.
rewrite all_map -all_predC; apply: eq_all => f /=.
by rewrite /idOrSelf /noId; case: (_ == _).
Qed.

Lemma keys_of_ids (fs : seq Folder) :
  ~~ has noId fs ->
  [seq idOrSelf f | f <- fs] = [seq KeyId id | id <- [seq folder_id f | f <- fs]].
Proof.
rewrite -all_predC -map_comp => /allP H; apply/eq_in_map => f /H /=.
by rewrite /idOrSelf /noId => /negbTE ->.
Qed.

Lemma sortKeys_ids (ids : seq ident) :
  sortKeys [seq KeyId id | id <- ids] = [seq KeyId id | id <- jsSort ids].
Proof. by rewrite /sortKeys sort_map. Qed.

Lemma KeyId_inj : injective KeyId.
Proof. by move=> id1 id2 []. Qed.

(** The folders count as changed when one of the folder objects, previous
    or current, has an empty [id], or when the identifiers are not a
    reordering of the previous ones. *)
Lemma foldersChangedE (previous current : seq Folder) :
  foldersChanged previous current
  = has noId (previous ++ current)
    || ~~ perm_eq [seq folder_id f | f <- previous]
                  [seq folder_id f | f <- current].
Proof.
rewrite /foldersChanged keysEqualE all_sort all_isId has_cat negb_and negbK.
case Hp: (has noId previous) => /=; first by rewrite orbT.
rewrite orbF; case Hc: (has noId current) => /=.
  apply/negP => /eqP E.
  have: all isId (sortKeys [seq idOrSelf f | f <- current]).
    by rewrite -E all_sort all_isId Hp.
  by rewrite all_sort all_isId Hc.
rewrite !keys_of_ids ?Hp ?Hc // !sortKeys_ids (inj_eq (inj_map KeyId_inj)).
by rewrite jsSort_eq.
Qed.

(** ** Running composed programs *)

Section RunFacts.
Variable h : host.
Lemma prefixed_nil A (o : outcome A) : prefixed [::] o = o.
Proof. by case: o. Qed.

Lemma prefixed_after A ev tr (o : outcome A) :
  after ev (prefixed tr o) = prefixed (ev :: tr) o.
Proof. by []. Qed.

Lemma run_bind A B (p : Prog A) (f : A -> Prog B) s :
  run h (bind p f) s =
  match value (run h p s) with
  | inr a => prefixed (trace (run h p s)) (run h (f a) (final (run h p s)))
  | inl e => mkOutcome (final (run h p s)) (trace (run h p s)) (inl e)
  end.
Proof.
elim: p s => [a|e|k IH|a k IH|o k IH|r k IH|k IH] s //=;
  try by rewrite IH; case: (value _).
by rewrite prefixed_nil.
Qed.

Lemma run_try_catch A (p : Prog A) (handler : error -> Prog A) s :
  run h (try_catch p handler) s =
  match value (run h p s) with
  | inr a => run h p s
  | inl e => prefixed (trace (run h p s)) (run h (handler e) (final (run h p s)))
  end.
Proof.
elim: p s => [a|e|k IH|a k IH|o k IH|r k IH|k IH] s //=;
  try by rewrite IH; case: (value _).
by rewrite prefixed_nil.
Qed.

Lemma run_try_finally A (p : Prog A) (fin : Prog unit) s :
  run h (try_finally p fin) s =
  let o := run h p s in
  let o' := run h fin (final o) in
  mkOutcome (final o') (trace o ++ trace o')
    (if value o' is inl e then inl e else value o).
Proof.
elim: p s => [a|e|k IH|a k IH|o k IH|r k IH|k IH] s //=;
  try by rewrite IH.
- by rewrite run_bind; case: (run h fin s) => f t [e|[]]; rewrite /prefixed /= ?cats0.
- by rewrite run_bind; case: (run h fin s) => f t [e'|[]]; rewrite /prefixed /= ?cats0.
Qed.

Lemma run_awaitAsync A (f : Prog A) s : run h (awaitAsync f) s = run h f s.
Proof.
rewrite /awaitAsync.
by elim: f s => [a|e|k IH|a k IH|o k IH|r k IH|k IH] s //=; rewrite IH.
Qed.

End RunFacts.

(** ** The common-attribute computation *)

Section InEvery.
Implicit Types (arrays : seq (seq ident)) (x : ident).

Lemma mem_inEvery arrays x :
  arrays != [::] -> (x \in inEvery arrays) = all (fun arr => x \in arr) arrays.
Proof.
case: arrays => [|first rest] // _.
by rewrite /inEvery mem_filter /= andbAC andbb.
Qed.

Lemma inEvery_subseq arrays : subseq (inEvery arrays) (head [::] arrays).
Proof. exact: filter_subseq. Qed.

Lemma count_inEvery arrays x :
  x \in inEvery arrays ->
  count_mem x (inEvery arrays) = count_mem x (head [::] arrays).
Proof.
rewrite /inEvery mem_filter count_filter => /andP [Hx _].
by apply: eq_count => y /=; case: eqP => [->|//]; rewrite Hx.
Qed.

Lemma inEvery_nil arrays : [::] \in arrays -> inEvery arrays = [::].
Proof.
move=> Hnil; apply/eqP; rewrite -[_ == _]negbK -has_filter -all_predC.
apply/allP => x _ /=; apply/allPn; exists [::] => //.
Qed.

End InEvery.

Section FindCommon.
Variable h : host.
Implicit Types st : State.

Lemma findCommon_value st : value (run h findCommonFoldersAndTags st) = inr tt.
Proof.
case: st => [[|item items] cf ct fl] //=.
case: (inEvery _) => [|id ids] //=.
by case: (h (GetByIds (id :: ids))).
Qed.

Lemma findCommon_final st :
  0 < size (selectedItems st) ->
  final (run h findCommonFoldersAndTags st) =
  mkState (selectedItems st) (resolved h (inEvery (allFolders st)))
          (inEvery (allTags st)) (isRefreshing st).
Proof.
case: st => [[|item items] cf ct fl] //= _.
rewrite /resolved /allFolders /allTags /=.
case: (inEvery _) => [|id ids] //=.
by case: (h (GetByIds (id :: ids))).
Qed.

Lemma findCommon_empty st :
  selectedItems st = [::] ->
  final (run h findCommonFoldersAndTags st) =
  mkState [::] [::] [::] (isRefreshing st).
Proof. by case: st => [sel cf ct fl] /= ->. Qed.

Lemma findCommon_calls st :
  calls (trace (run h findCommonFoldersAndTags st)) =
  if (0 < size (selectedItems st)) && (0 < size (inEvery (allFolders st)))
  then [:: GetByIds (inEvery (allFolders st))] else [::].
Proof.
case: st => [[|item items] cf ct fl] //=.
rewrite /allFolders /=.
case: (inEvery _) => [|id ids] //=.
by case: (h (GetByIds (id :: ids))).
Qed.

End FindCommon.

(** ** Properties of [findCommonFoldersAndTags] *)

Lemma resolved_ids h ids :
  resolvesRequested h -> [seq folder_id f | f <- resolved h ids] =i ids.
Proof.
move=> Hh; rewrite /resolved; case: ifP => [_|]; last by case: ids.
case E: (h (GetByIds ids)) => [e|folders]; last exact: Hh E.
by move=> x; rewrite -map_comp (@eq_map _ _ _ id) ?map_id.
Qed.

Lemma mem_inEvery_folders st x :
  0 < size (selectedItems st) ->
  (x \in inEvery (allFolders st)) = all (fun item => x \in foldersOf item) (selectedItems st).
Proof.
move=> Hsel; rewrite mem_inEvery ?all_map //.
by rewrite /allFolders; case: (selectedItems st) Hsel.
Qed.

Lemma mem_inEvery_tags st x :
  0 < size (selectedItems st) ->
  (x \in inEvery (allTags st)) = all (fun item => x \in tagsOf item) (selectedItems st).
Proof.
move=> Hsel; rewrite mem_inEvery ?all_map //.
by rewrite /allTags; case: (selectedItems st) Hsel.
Qed.

Lemma all_memP (f : Item -> seq ident) (items : seq Item) (x : ident) :
  reflect (forall item, List.In item items -> x \in f item)
          (all (fun item => x \in f item) items).
Proof.
elim: items => [|item items IH] /=; first by left.
apply: (iffP andP) => [[Hx /IH Hall] item' [<-|/Hall] //|Hall].
by split; [apply: Hall; left | apply/IH => item' Hin; apply: Hall; right].
Qed.

Lemma all_memPn (f : Item -> seq ident) (items : seq Item) (x : ident) :
  reflect (exists item, List.In item items /\ x \notin f item)
          (~~ all (fun item => x \in f item) items).
Proof.
elim: items => [|item items IH] /=; first by right; case=> item [].
rewrite negb_and; apply: (iffP orP) => [[Hx|/IH [item' [Hin Hx]]]|].
- by exists item; split; [left|].
- by exists item'; split; [right|].
- case=> item' [[<-|Hin] Hx]; [by left | right; apply/IH; by exists item'].
Qed.

(** C1. For a non-empty selection, the folder identifiers that survive
    (those handed to the host lookup) are exactly the intersection of the
    items' folder collections, and [commonTags] is exactly the intersection
    of their tag collections: each entry belongs to the collection of every
    selected item, and whatever is not an entry is missing from the
    collection of some selected item. [commonFolders] holds the objects of
    the surviving identifiers, so that with a host lookup that returns the
    folders it is asked for, or fails, the identifiers of [commonFolders]
    are exactly that intersection. *)
Theorem C1_common_sets_are_intersections (h : host) (st : State) :
  0 < size (selectedItems st) ->
  let st' := final (run h findCommonFoldersAndTags st) in
  intersectionOf (selectedItems st) foldersOf (inEvery (allFolders st)) /\
  commonFolders st' = resolved h (inEvery (allFolders st)) /\
  (resolvesRequested h ->
   intersectionOf (selectedItems st) foldersOf
                  [seq folder_id f | f <- commonFolders st']) /\
  intersectionOf (selectedItems st) tagsOf (commonTags st').
Proof.
move=> Hsel st'; rewrite {}/st' findCommon_final //=.
have Hfolders : intersectionOf (selectedItems st) foldersOf (inEvery (allFolders st)).
  by split=> x; rewrite mem_inEvery_folders //; [move/all_memP | move/all_memPn].
split; first exact: Hfolders.
split; first by [].
split; last first.
  by split=> x; rewrite mem_inEvery_tags //; [move/all_memP | move/all_memPn].
by move=> Hh; split=> x; rewrite resolved_ids //; apply Hfolders.
Qed.

(** The scenario of two items with folders [1; 2] and [2; 3] and tags
    [x] and [x; y]. *)
Lemma C1_common_sets_witness :
  let a := mkItem "a" (Some [:: "1"; "2"]) (Some [:: "x"]) in
  let b := mkItem "b" (Some [:: "2"; "3"]) (Some [:: "x"; "y"]) in
  let st := mkState [:: a; b] [::] [::] false in
  let h := hostOf (inr (Some [:: a; b]))
                  (fun ids => inr [seq mkFolder id "Work" | id <- ids])
                  (inl (errorWith "unused")) in
  let st' := final (run h findCommonFoldersAndTags st) in
  [seq folder_id f | f <- commonFolders st'] = [:: "2"] /\
  commonTags st' = [:: "x"] /\
  intersectionOf [:: a; b] foldersOf [:: "2"] /\
  intersectionOf [:: a; b] tagsOf [:: "x"].
Proof.
move=> a b st h st'.
have Hh : resolvesRequested h.
  by move=> ids folders [<-] x; rewrite -map_comp (@eq_map _ _ _ id) ?map_id.
have [_ [_ [Hfolders Htags]]] :=
  @C1_common_sets_are_intersections h st erefl.
split; first by vm_compute.
split; first by vm_compute.
by split; [exact: (Hfolders Hh) | exact: Htags].
Defined.

(** C5. When the host lookup of the surviving folder identifiers fails, the
    computation does not fail: it returns normally and [commonFolders]
    holds, for each surviving identifier [id] and in the same order, the
    object with that [id] and the name ["Folder " + id]. *)
Theorem C5_lookup_failure_fallback (h : host) (st : State) (e : error) :
  h (GetByIds (inEvery (allFolders st))) = inl e ->
  let o := run h findCommonFoldersAndTags st in
  value o = inr tt /\
  commonFolders (final o) =
    [seq mkFolder id (String.append "Folder " id) | id <- inEvery (allFolders st)].
Proof.
move=> Hfail o; rewrite {}/o; split; first exact: findCommon_value.
case Hsel: (selectedItems st) => [|item items].
  by rewrite findCommon_empty // /allFolders Hsel.
rewrite findCommon_final ?Hsel //= /resolved Hfail.
by case: (inEvery _).
Qed.

(** The scenario of a failing lookup for the identifier 7. *)
Lemma C5_lookup_failure_witness :
  let a := mkItem "a" (Some [:: "7"]) None in
  let st := mkState [:: a] [::] [::] false in
  let h := hostOf (inr (Some [:: a])) (fun ids => inl (errorWith "lookup failed"))
                  (inl (errorWith "unused")) in
  let o := run h findCommonFoldersAndTags st in
  value o = inr tt /\ commonFolders (final o) = [:: mkFolder "7" "Folder 7"].
Proof.
move=> a st h o.
exact: (@C5_lookup_failure_fallback h st (errorWith "lookup failed") erefl).
Defined.

(** C9. A selected item without [folders] (resp. [tags]) counts as having
    none: the computation returns normally for every selection and every
    host, and [commonFolders] (resp. [commonTags]) is empty as soon as one
    selected item lacks the field. *)
Theorem C9_missing_field_is_empty (h : host) (st : State) :
  let o := run h findCommonFoldersAndTags st in
  value o = inr tt /\
  (forall item, List.In item (selectedItems st) ->
     item_folders item = None -> commonFolders (final o) = [::]) /\
  (forall item, List.In item (selectedItems st) ->
     item_tags item = None -> commonTags (final o) = [::]).
Proof.
have Hin (f : Item -> option (seq ident)) item :
    List.In item (selectedItems st) -> f item = None ->
    [::] \in [seq orEmpty (f item') | item' <- selectedItems st].
  elim: (selectedItems st) => [|item' items IH] //= [->|Hin] Hf.
    by rewrite Hf mem_head.
  by rewrite inE IH ?orbT.
have Hsel item : List.In item (selectedItems st) -> 0 < size (selectedItems st).
  by case: (selectedItems st).
move=> o; rewrite {}/o; split; first exact: findCommon_value.
split=> item Hitem Hnone; rewrite findCommon_final ?(Hsel item) //=.
- by rewrite (inEvery_nil (Hin item_folders item Hitem Hnone)).
- exact: inEvery_nil (Hin item_tags item Hitem Hnone).
Qed.

(** An item with neither [folders] nor [tags] next to one with both. *)
Lemma C9_missing_field_witness :
  let a := mkItem "a" (Some [:: "f1"]) (Some [:: "x"]) in
  let b := mkItem "b" None None in
  let st := mkState [:: a; b] [:: mkFolder "f1" "Work"] [:: "x"] false in
  let h := hostOf (inr (Some [:: a; b])) (fun ids => inl (errorWith "lookup failed"))
                  (inl (errorWith "unused")) in
  let o := run h findCommonFoldersAndTags st in
  value o = inr tt /\ commonFolders (final o) = [::] /\ commonTags (final o) = [::].
Proof.
move=> a b st h o.
have [Hv [Hf Ht]] := C9_missing_field_is_empty h st.
split; first exact: Hv.
have Hb : List.In b (selectedItems st) by right; left.
by split; [apply: (Hf b Hb) | apply: (Ht b Hb)].
Defined.

(** C10. For a selection [first :: rest], the folder identifiers that
    survive (those handed to the host lookup, and resolved into
    [commonFolders]) and the computed [commonTags] are sub-lists, in order,
    of the first item's folders (resp. tags), and a surviving entry occurs
    in the result as many times as in the first item's collection. *)
Theorem C10_common_is_sublist_of_first (h : host) (st : State)
    (first : Item) (rest : seq Item) :
  selectedItems st = first :: rest ->
  let o := run h findCommonFoldersAndTags st in
  let commonFolderIds := inEvery (allFolders st) in
  calls (trace o) =
    (if 0 < size commonFolderIds then [:: GetByIds commonFolderIds] else [::]) /\
  commonFolders (final o) = resolved h commonFolderIds /\
  subseq commonFolderIds (foldersOf first) /\
  (forall id, id \in commonFolderIds ->
     count_mem id commonFolderIds = count_mem id (foldersOf first)) /\
  subseq (commonTags (final o)) (tagsOf first) /\
  (forall tag, tag \in commonTags (final o) ->
     count_mem tag (commonTags (final o)) = count_mem tag (tagsOf first)).
Proof.
move=> Hsel o ids; rewrite {}/o {}/ids findCommon_calls findCommon_final Hsel //=.
have HF : foldersOf first = head [::] (allFolders st) by rewrite /allFolders Hsel.
have HT : tagsOf first = head [::] (allTags st) by rewrite /allTags Hsel.
rewrite HF HT; do !split=> //; try exact: inEvery_subseq.
- exact: count_inEvery.
- exact: count_inEvery.
Qed.

(** A first item that lists a folder and a tag twice. *)
Lemma C10_common_is_sublist_witness :
  let a := mkItem "a" (Some [:: "f2"; "f1"; "f3"; "f2"]) (Some [:: "y"; "x"; "y"]) in
  let b := mkItem "b" (Some [:: "f1"; "f2"]) (Some [:: "x"; "y"; "z"]) in
  let st := mkState [:: a; b] [::] [::] false in
  let h := hostOf (inr (Some [:: a; b])) (fun ids => inl (errorWith "lookup failed"))
                  (inl (errorWith "unused")) in
  let o := run h findCommonFoldersAndTags st in
  calls (trace o) = [:: GetByIds [:: "f2"; "f1"; "f2"]] /\
  commonTags (final o) = [:: "y"; "x"; "y"] /\
  subseq (commonTags (final o)) (tagsOf a).
Proof.
move=> a b st h o.
have [Hcalls [_ [_ [_ [Hsub _]]]]] :=
  @C10_common_is_sublist_of_first h st a [:: b] erefl.
split; first by rewrite Hcalls; vm_compute.
by split; [vm_compute | exact: Hsub].
Defined.

(** ** Properties of the change test *)

(** C2, as stated with sets, fails when an entry is repeated: [["a"; "a"]]
    and [["a"]] have the same elements, and the test reports a change. *)
Lemma C2_sets_counterexample :
  let A := [:: "a"; "a"] in
  let B := [:: "a"] in
  hasChanged A B <> ~~ same_set A B.
Proof. by []. Qed.

(** C2 (amended). The change test reports a change exactly when the two
    sequences are not reorderings of each other (they differ as multisets);
    it is symmetric and reports no change for reorderings; for sequences
    without repeated entries it reports a change exactly when they differ
    as sets. *)
Theorem C2_change_test_compares_multisets (A B : seq ident) :
  hasChanged A B = ~~ perm_eq A B /\
  hasChanged A B = hasChanged B A /\
  (perm_eq A B -> hasChanged A B = false) /\
  (uniq A -> uniq B -> hasChanged A B = ~~ same_set A B).
Proof.
rewrite !hasChangedE; split=> //; split; first by rewrite perm_sym.
by split=> [->|UA UB] //; rewrite uniq_perm_same_set.
Qed.

(** Three identifiers in two orders. *)
Lemma C2_change_test_witness :
  let A := [:: "b"; "a"; "c"] in
  let B := [:: "c"; "b"; "a"] in
  perm_eq A B /\ uniq A /\ uniq B /\
  hasChanged A B = false /\ hasChanged A B = ~~ same_set A B.
Proof.
move=> A B.
have [_ [_ [Hperm Huniq]]] := C2_change_test_compares_multisets A B.
split; first by vm_compute.
split; first by vm_compute.
split; first by vm_compute.
split; [apply: Hperm | apply: Huniq]; by vm_compute.
Defined.

(** ** Properties of [refreshData] *)

Section Refresh.
Variable h : host.
Implicit Types st : State.

(** The guard: an invocation that finds [isRefreshing] set does nothing
    but log. *)
Lemma refresh_busy st :
  isRefreshing st ->
  run h refreshData st =
  mkOutcome st [:: Did (ConsoleLog "Refresh already in progress, skipping")]
            (inr tt).
Proof. by case: st => sel cf ct [] //=. Qed.

Lemma refresh_fetch_failed st e :
  isRefreshing st = false -> h GetSelected = inl e ->
  run h refreshData st =
  mkOutcome st
    [:: Wrote (SetIsRefreshing true); Did (LoadingIndicator true);
        Called GetSelected;
        Did (ConsoleError "Error refreshing data:" e);
        Wrote (SetIsRefreshing false); Did (LoadingIndicator false)]
    (inr tt).
Proof. by case: st => sel cf ct fl /= -> /= Hh; rewrite Hh. Qed.

(** The short circuit: the fetched identifiers are a reordering of the
    previous ones. *)
Lemma refresh_same_ids st selection :
  isRefreshing st = false -> h GetSelected = inr selection ->
  perm_eq [seq item_id item | item <- selectedItems st]
          [seq item_id item | item <- orEmpty selection] ->
  run h refreshData st =
  mkOutcome st
    [:: Wrote (SetIsRefreshing true); Did (LoadingIndicator true);
        Called GetSelected;
        Did (ConsoleLog "Current selection count:");
        Did (ConsoleLog "Previous selection count:");
        Did (ConsoleLog "Old IDs:"); Did (ConsoleLog "New IDs:");
        Did (ConsoleLog "Selection changed:");
        Did (ConsoleLog "No selection changes detected, skipping refresh");
        Wrote (SetIsRefreshing false); Did (LoadingIndicator false)]
    (inr tt).
Proof.
case: st => sel cf ct fl /= -> /= Hh Hperm; rewrite Hh /=.
by rewrite arraysEqualE jsSort_eq Hperm.
Qed.

(** A changed selection that is now empty: the placeholders are shown and
    the handler returns before [findCommonFoldersAndTags]; [commonFolders]
    and [commonTags] are not assigned. *)
Lemma refresh_deselected st selection :
  isRefreshing st = false -> h GetSelected = inr selection ->
  orEmpty selection = [::] -> 0 < size (selectedItems st) ->
  run h refreshData st =
  mkOutcome (mkState [::] (commonFolders st) (commonTags st) false)
    [:: Wrote (SetIsRefreshing true); Did (LoadingIndicator true);
        Called GetSelected;
        Did (ConsoleLog "Current selection count:");
        Did (ConsoleLog "Previous selection count:");
        Did (ConsoleLog "Old IDs:"); Did (ConsoleLog "New IDs:");
        Did (ConsoleLog "Selection changed:");
        Wrote (SetSelectedItems [::]); Did (ItemCount 0);
        Did DisplayNoSelection;
        Wrote (SetIsRefreshing false); Did (LoadingIndicator false)]
    (inr tt).
Proof.
case: st => sel cf ct fl /= -> /= Hh Hnew Hold; rewrite Hh /= Hnew /=.
rewrite arraysEqualE jsSort_eq /=.
case: sel Hold => [|item items] //= _.
by have -> : perm_eq (item_id item :: [seq item_id i | i <- items]) [::] = false
  by apply/perm_nilP.
Qed.

Lemma run_refreshData st :
  run h refreshData st =
  if isRefreshing st then
    run h (log "Refresh already in progress, skipping") st
  else
    run h (try_finally
             (try_catch refreshTry
                (fun error => emit (ConsoleError "Error refreshing data:" error)))
             refreshFinally) st.
Proof. by rewrite /refreshData /=; case: (isRefreshing st). Qed.

(** A cycle that is not dropped returns normally with the flag reset. *)
Lemma refresh_completes st :
  isRefreshing st = false ->
  let o := run h refreshData st in
  value o = inr tt /\ isRefreshing (final o) = false.
Proof.
move=> Hfl o; rewrite {}/o run_refreshData Hfl run_try_finally.
set o1 := run h (try_catch _ _) st.
have Ho1 : value o1 = inr tt.
  rewrite /o1 run_try_catch.
  by case E: (value (run h refreshTry st)) => [e|[]].
by clearbody o1; rewrite /= Ho1.
Qed.

End Refresh.

(** C3. The common sets are not cleared when the selection becomes empty.
    With item [a] selected, [commonFolders = [f1]] and [commonTags = [x]],
    a refresh that fetches the empty selection empties [selectedItems] and
    shows the placeholders, and leaves both common sets as they were:
    [refreshData] returns before the call of [findCommonFoldersAndTags]
    whose first branch would clear them. *)
Theorem C3_deselecting_keeps_common_sets :
  let item := mkItem "a" (Some [:: "f1"]) (Some [:: "x"]) in
  let st := mkState [:: item] [:: mkFolder "f1" "Work"] [:: "x"] false in
  let h := hostOf (inr (Some [::])) (fun ids => inr [::]) (inl (errorWith "unused")) in
  let o := run h refreshData st in
  selectedItems (final o) = [::] /\
  commonFolders (final o) = [:: mkFolder "f1" "Work"] /\
  commonTags (final o) = [:: "x"] /\
  writes (trace o) =
    [:: SetIsRefreshing true; SetSelectedItems [::]; SetIsRefreshing false].
Proof. by []. Qed.

(** The computation itself clears both sets on an empty selection; it is
    the caller that never reaches it. *)
Lemma findCommon_clears_on_empty_selection (h : host) (st : State) :
  selectedItems st = [::] ->
  let o := run h findCommonFoldersAndTags st in
  commonFolders (final o) = [::] /\ commonTags (final o) = [::].
Proof. by move=> Hsel o; rewrite {}/o findCommon_empty. Qed.

(** A visible consequence of the stale sets: selecting [a] again after the
    deselection recomputes the same common folders and tags, finds no
    change, and leaves the placeholders on screen. *)
Lemma reselecting_shows_no_badges :
  let item := mkItem "a" (Some [:: "f1"]) (Some [:: "x"]) in
  let st := mkState [::] [:: mkFolder "f1" "Work"] [:: "x"] false in
  let h := hostOf (inr (Some [:: item]))
                  (fun ids => inr [seq mkFolder id "Work" | id <- ids])
                  (inl (errorWith "unused")) in
  let o := run h refreshData st in
  commonFolders (final o) = [:: mkFolder "f1" "Work"] /\
  commonTags (final o) = [:: "x"] /\
  [seq x <- outputs (trace o) | if x is ConsoleLog _ then false else true] =
    [:: LoadingIndicator true; ItemCount 1; LoadingIndicator false].
Proof. by []. Qed.

(** C6. When [eagle.item.getSelected] rejects, the cycle started by
    [refreshData] ends with the state exactly as it was ([selectedItems],
    [commonFolders], [commonTags] unchanged and [isRefreshing] false again,
    so that the next refresh is not dropped); the error is logged and the
    handler returns normally. *)
Theorem C6_fetch_failure_leaves_state (h : host) (st : State) (e : error) :
  isRefreshing st = false ->
  h GetSelected = inl e ->
  let o := run h refreshData st in
  final o = st /\
  value o = inr tt /\
  outputs (trace o) =
    [:: LoadingIndicator true; ConsoleError "Error refreshing data:" e;
        LoadingIndicator false] /\
  calls (trace o) = [:: GetSelected].
Proof. by move=> Hfl Hh o; rewrite {}/o (refresh_fetch_failed Hfl Hh). Qed.

(** A failed fetch, followed by a second refresh. *)
Lemma C6_fetch_failure_witness :
  let st := mkState [:: mkItem "a" (Some [:: "f1"]) None]
                    [:: mkFolder "f1" "Work"] [::] false in
  let h := hostOf (inl (errorWith "offline")) (fun ids => inr [::]) (inl (errorWith "unused")) in
  final (run h refreshData st) = st /\
  isRefreshing (final (run h refreshData (final (run h refreshData st)))) = false.
Proof.
move=> st h.
have [Hst _] := @C6_fetch_failure_leaves_state h st (errorWith "offline") erefl erefl.
by split; [exact: Hst | rewrite Hst; vm_compute].
Defined.

(** C7, as stated for selections with the same set of identifiers, fails
    when an item is listed twice: the stored selection holds the item with
    identifier ["a"] twice, the host reports it once. The two selections
    have the same set of identifiers, yet the refresh is not cut short: the
    selection is replaced, the folders are looked up and both common sets
    are assigned anew. *)
Lemma C7_same_set_counterexample :
  let a := mkItem "a" (Some [:: "f1"]) (Some [:: "x"]) in
  let st := mkState [:: a; a] [::] [::] false in
  let h := hostOf (inr (Some [:: a]))
                  (fun ids => inr [seq mkFolder id "Work" | id <- ids])
                  (inl (errorWith "unused")) in
  let o := run h refreshData st in
  [/\ same_set [seq item_id item | item <- selectedItems st]
               [seq item_id item | item <- [:: a]],
      calls (trace o) = [:: GetSelected; GetByIds [:: "f1"]],
      writes (trace o) =
        [:: SetIsRefreshing true; SetSelectedItems [:: a];
            SetCommonFolders [:: mkFolder "f1" "Work"]; SetCommonTags [:: "x"];
            SetIsRefreshing false]
    & final o = mkState [:: a] [:: mkFolder "f1" "Work"] [:: "x"] false].
Proof. by []. Qed.

(** C7 (amended). When the identifiers of the fetched selection are a
    reordering of those of the previous one (the same identifiers, each as
    many times), the refresh is cut short: nothing but the flag is written,
    the host is asked for nothing but the selection, and the state, with
    [commonFolders] and [commonTags], is left as it was. In particular this
    holds when two selections that list each item once have the same set of
    identifiers. *)
Theorem C7_unchanged_selection_short_circuits
    (h : host) (st : State) (selection : option (seq Item)) :
  isRefreshing st = false ->
  h GetSelected = inr selection ->
  let oldIds := [seq item_id item | item <- selectedItems st] in
  let newIds := [seq item_id item | item <- orEmpty selection] in
  let o := run h refreshData st in
  let cutShort :=
    [/\ final o = st, value o = inr tt, calls (trace o) = [:: GetSelected]
      & writes (trace o) = [:: SetIsRefreshing true; SetIsRefreshing false]] in
  (perm_eq oldIds newIds -> cutShort) /\
  (uniq oldIds -> uniq newIds -> same_set oldIds newIds -> cutShort).
Proof.
move=> Hfl Hh oldIds newIds o cutShort.
have Hperm : perm_eq oldIds newIds -> cutShort.
  by move=> Hperm; rewrite /cutShort /o (refresh_same_ids Hfl Hh Hperm).
split=> // Uold Unew Hset.
by apply: Hperm; rewrite uniq_perm_same_set.
Qed.

(** The same two items, fetched in the other order. *)
Lemma C7_unchanged_selection_witness :
  let a := mkItem "a" (Some [:: "f1"]) (Some [:: "x"]) in
  let b := mkItem "b" (Some [:: "f1"; "f2"]) (Some [:: "x"]) in
  let st := mkState [:: a; b] [:: mkFolder "f1" "Work"] [:: "x"] false in
  let h := hostOf (inr (Some [:: b; a])) (fun ids => inr [::]) (inl (errorWith "unused")) in
  final (run h refreshData st) = st.
Proof.
move=> a b st h.
have [Hperm Hset] :=
  @C7_unchanged_selection_short_circuits h st (Some [:: b; a]) erefl erefl.
have [Hfinal _ _ _] := Hset erefl erefl erefl.
have [Hfinal' _ _ _] := Hperm erefl.
exact: Hfinal.
Defined.

(** ** Host calls of a handler *)

Section AsksOnly.
Variable P : pred request.

Lemma asksOnly_bind A B (p : Prog A) (f : A -> Prog B) :
  asksOnly P p -> (forall a, asksOnly P (f a)) -> asksOnly P (bind p f).
Proof. by move=> Hp Hf; elim: Hp => /=; try by constructor. Qed.

Lemma asksOnly_try_catch A (p : Prog A) (handler : error -> Prog A) :
  asksOnly P p -> (forall e, asksOnly P (handler e)) ->
  asksOnly P (try_catch p handler).
Proof. by move=> Hp Hf; elim: Hp => /=; try by constructor. Qed.

Lemma asksOnly_try_finally A (p : Prog A) (fin : Prog unit) :
  asksOnly P p -> asksOnly P fin -> asksOnly P (try_finally p fin).
Proof.
move=> Hp Hf; elim: Hp => /=; try by constructor.
- by move=> a; apply: asksOnly_bind => // _; constructor.
- by move=> e; apply: asksOnly_bind => // _; constructor.
Qed.

Lemma asksOnly_run A (h : host) (p : Prog A) s :
  asksOnly P p -> all P (calls (trace (run h p s))).
Proof.
move=> Hp; elim: Hp s => //= r k Hr _ IH s.
by rewrite Hr IH.
Qed.

End AsksOnly.

(** Goals [asksOnly P p] for the programs of this file: follow the
    structure of [p]. *)
Ltac asks :=
  lazymatch goal with
  | |- asksOnly _ (bind _ _) =>
      apply: asksOnly_bind; [asks | move=> ?; asks]
  | |- asksOnly _ (try_catch _ _) =>
      apply: asksOnly_try_catch; [asks | move=> ?; asks]
  | |- asksOnly _ (try_finally _ _) =>
      apply: asksOnly_try_finally; [asks | asks]
  | |- asksOnly _ (if _ then _ else _) => case: ifP => _; asks
  | |- asksOnly _ (match ?x with inl _ => _ | inr _ => _ end) =>
      case: x => ?; asks
  | |- asksOnly _ (Ret _) => exact: ao_ret
  | |- asksOnly _ (Throw _) => exact: ao_throw
  | |- asksOnly _ (Read _) => apply: ao_read => ?; asks
  | |- asksOnly _ (Assign _ _) => apply: ao_assign; asks
  | |- asksOnly _ (Emit _ _) => apply: ao_emit; asks
  | |- asksOnly _ (Await _ _) => apply: ao_await; [by [] | move=> ?; asks]
  | |- asksOnly _ (Yield _) => apply: ao_yield; asks
  | |- asksOnly ?P ?p =>
      first [ by eauto
            | let p' := eval hnf in p in progress change (asksOnly P p'); asks ]
  end.

Lemma asksOnly_findCommon : asksOnly (predC isSwap) findCommonFoldersAndTags.
Proof. by asks. Qed.

Lemma asksOnly_refreshData : asksOnly (predC isSwap) refreshData.
Proof.
have Hfind := asksOnly_findCommon.
rewrite /refreshData /refreshTry; by asks.
Qed.

(** ** The swap handlers *)

Section Swap.
Variable h : host.
Implicit Types st : State.

Lemma refresh_value st : value (run h refreshData st) = inr tt.
Proof.
case Hfl: (isRefreshing st); first by rewrite refresh_busy.
by have [] := refresh_completes h Hfl.
Qed.

Lemma refresh_never_swaps st :
  count isSwap (calls (trace (run h refreshData st))) = 0.
Proof.
apply/eqP; rewrite -leqn0 leqNgt -has_count -all_predC.
exact: asksOnly_run asksOnly_refreshData.
Qed.

Lemma run_swapTagToFolder st tagName result :
  tagName != "" ->
  h (SwapTagToFolder tagName (selectedItems st)) = inr result ->
  run h (swapTagToFolder tagName) st =
  prefixed [:: Did FoldersProcessing;
               Called (SwapTagToFolder tagName (selectedItems st));
               Did (Alert (tagSwapMessage tagName result))]
           (run h refreshData st).
Proof.
move=> /negbTE Htag Hh; rewrite /swapTagToFolder Htag run_try_catch.
have -> : forall rest : Prog unit,
    run h (emit FoldersProcessing ;;
           st' <-- get ;;
           result' <-- await (SwapTagToFolder tagName (selectedItems st')) ;;
           emit (Alert (tagSwapMessage tagName result')) ;;
           rest) st =
    prefixed [:: Did FoldersProcessing;
                 Called (SwapTagToFolder tagName (selectedItems st));
                 Did (Alert (tagSwapMessage tagName result))]
             (run h rest st).
  by move=> rest; rewrite [LHS]/= Hh /=; case: (run h rest st).
by rewrite run_awaitAsync [value _]/= refresh_value.
Qed.

Lemma run_swapFolderToTag st folder result :
  h (SwapFolderToTag folder (selectedItems st)) = inr result ->
  run h (swapFolderToTag folder) st =
  prefixed [:: Did TagsProcessing;
               Called (SwapFolderToTag folder (selectedItems st));
               Did (Alert (folderSwapMessage folder result))]
           (run h refreshData st).
Proof.
move=> Hh; rewrite /swapFolderToTag run_try_catch.
have -> : forall rest : Prog unit,
    run h (emit TagsProcessing ;;
           st' <-- get ;;
           result' <-- await (SwapFolderToTag folder (selectedItems st')) ;;
           emit (Alert (folderSwapMessage folder result')) ;;
           rest) st =
    prefixed [:: Did TagsProcessing;
                 Called (SwapFolderToTag folder (selectedItems st));
                 Did (Alert (folderSwapMessage folder result))]
             (run h rest st).
  by move=> rest; rewrite [LHS]/= Hh /=; case: (run h rest st).
by rewrite run_awaitAsync [value _]/= refresh_value.
Qed.

End Swap.

(** When the host operation of a swap returns an outcome, successful or
    not, the handler shows it in a dialog and then runs [refreshData] from
    the state it started in: the rest of the run is exactly a run of
    [refreshData]. The swap is asked of the host once (no retry) and
    nothing is written before the refresh (no rollback). *)
Lemma swap_reports_then_runs_refreshData
    (h : host) (st : State) (result : SwapResult) :
  (forall tagName,
     tagName != "" ->
     h (SwapTagToFolder tagName (selectedItems st)) = inr result ->
     let o := run h (swapTagToFolder tagName) st in
     o = prefixed [:: Did FoldersProcessing;
                      Called (SwapTagToFolder tagName (selectedItems st));
                      Did (Alert (tagSwapMessage tagName result))]
                  (run h refreshData st) /\
     count isSwap (calls (trace o)) = 1) /\
  (forall folder,
     h (SwapFolderToTag folder (selectedItems st)) = inr result ->
     let o := run h (swapFolderToTag folder) st in
     o = prefixed [:: Did TagsProcessing;
                      Called (SwapFolderToTag folder (selectedItems st));
                      Did (Alert (folderSwapMessage folder result))]
                  (run h refreshData st) /\
     count isSwap (calls (trace o)) = 1).
Proof.
split=> [tagName Htag Hh o|folder Hh o]; rewrite {}/o.
- by rewrite (run_swapTagToFolder Htag Hh) /= refresh_never_swaps.
- by rewrite (run_swapFolderToTag Hh) /= refresh_never_swaps.
Qed.

(** C4. The scenario of the specification: items [a] and [b] carry the tag
    ["x"], which is the common tag; the swap of ["x"] processes [a] and
    fails on [b]. The handler shows the outcome and calls [refreshData],
    but the host reports the same two items, so the refresh returns at its
    short circuit (lines 139-142) before [findCommonFoldersAndTags] is
    reached: only the flag is written, no folder is looked up, and
    [commonTags] is still [["x"]], although [a] no longer carries that tag
    and a recomputation from the fetched items would leave no common tag.
    The common sets are not recomputed after the swap. *)
Theorem C4_swap_recomputes_nothing :
  let a := mkItem "a" (Some [:: "f1"]) (Some [:: "x"]) in
  let b := mkItem "b" (Some [:: "f1"]) (Some [:: "x"]) in
  let a' := mkItem "a" (Some [:: "f1"; "fx"]) (Some [::]) in
  let st := mkState [:: a; b] [:: mkFolder "f1" "Work"] [:: "x"] false in
  let failed := mkSwapResult false 1 [:: "B failed: locked"] in
  let h := hostOf (inr (Some [:: a'; b]))
                  (fun ids => inr [seq mkFolder id "Work" | id <- ids])
                  (inr failed) in
  let o := run h (swapTagToFolder "x") st in
  [/\ calls (trace o) = [:: SwapTagToFolder "x" [:: a; b]; GetSelected],
      writes (trace o) = [:: SetIsRefreshing true; SetIsRefreshing false],
      final o = st, commonTags (final o) = [:: "x"]
    & commonTags (final (run h findCommonFoldersAndTags
                           (selecting [:: a'; b] st))) = [::]].
Proof. by []. Qed.

(** ** The reentrancy guard in the event loop *)







Lemma cycleAfter_cons ev tr before :
  cycleAfter (ev :: tr) before =
  cycleAfter tr (if ev is Wrote (SetIsRefreshing v) then v else before).
Proof. by []. Qed.






Lemma run_sync A (h : host) (p : Prog A) s :
  run h p s =
  let g := sync p s in
  match next g with
  | Finished v => mkOutcome (reached g) (emitted g) v
  | Suspended r k => prefixed (emitted g) (run h (k (h r)) (reached g))
  | Yielded k => prefixed (emitted g) (run h k (reached g))
  end.
Proof.
elim: p s => [a|e|k IH|a k IH|o k IH|r k IH|k IH] s //=.
- by rewrite IH; case: (sync k _) => s' tr [v|r k'|k'].
- by rewrite IH; case: (sync k _) => s' tr [v|r k'|k'].
- by rewrite prefixed_nil.
Qed.




(** ** The refresh that follows a swap *)

(** A swap does not change which items are selected. When the host then
    reports the same identifiers, the refresh started by the swap handler
    takes the short circuit of [refreshData]: [selectedItems],
    [commonFolders] and [commonTags] are the ones from before the swap. *)
Lemma refresh_after_swap_is_cut_short
    (h : host) (st : State) (tagName : ident) (result : SwapResult)
    (selection : option (seq Item)) :
  tagName != "" ->
  isRefreshing st = false ->
  h (SwapTagToFolder tagName (selectedItems st)) = inr result ->
  h GetSelected = inr selection ->
  perm_eq [seq item_id item | item <- selectedItems st]
          [seq item_id item | item <- orEmpty selection] ->
  final (run h (swapTagToFolder tagName) st) = st.
Proof.
move=> Htag Hfl Hswap Hsel Hperm.
by rewrite (run_swapTagToFolder Htag Hswap) (refresh_same_ids Hfl Hsel Hperm).
Qed.

(** * Further properties *)

(** ** [arraysEqual] *)

(** X1. [arraysEqual] answers true exactly for equal arrays: same length
    and the same element at every index; an array is not equal to a longer
    one it is a prefix of. *)
Theorem arraysEqual_decides_equality (T : eqType) (arr1 arr2 : seq T) :
  reflect (arr1 = arr2) (arraysEqual arr1 arr2).
Proof. by rewrite arraysEqualE; apply: eqP. Qed.

(** ** More on the common-attribute computation *)

Lemma inEvery_single (arr : seq ident) : inEvery [:: arr] = arr.
Proof.
rewrite /inEvery /=; apply/all_filterP/allP => x Hx.
by rewrite /= Hx.
Qed.

Lemma inEvery_cat (arrays more : seq (seq ident)) :
  0 < size arrays ->
  inEvery (arrays ++ more) =
  [seq x <- inEvery arrays | all (fun arr => x \in arr) more].
Proof.
case: arrays => [|first rest] // _.
rewrite /inEvery /= -filter_predI; apply: eq_filter => x /=.
by rewrite all_cat andbA andbC.
Qed.

Lemma inEvery_perm (arrays arrays' : seq (seq ident)) :
  0 < size arrays -> perm_eq arrays arrays' -> inEvery arrays =i inEvery arrays'.
Proof.
move=> Hn Hp x.
have Hn' : arrays' != [::] by rewrite -size_eq0 -(perm_size Hp) -lt0n.
have Hn'' : arrays != [::] by rewrite -size_eq0 -lt0n.
by rewrite (mem_inEvery _ Hn') (mem_inEvery _ Hn''); apply: perm_all.
Qed.

Lemma inEvery_uniq (arrays : seq (seq ident)) :
  uniq (head [::] arrays) -> uniq (inEvery arrays).
Proof. exact: filter_uniq. Qed.

Lemma screen_cat tr1 tr2 : screen (tr1 ++ tr2) = screen tr1 ++ screen tr2.
Proof. by rewrite /screen /outputs pmap_cat filter_cat. Qed.

Lemma calls_cat tr1 tr2 : calls (tr1 ++ tr2) = calls tr1 ++ calls tr2.
Proof. by rewrite /calls pmap_cat. Qed.

Lemma findCommon_screen (h : host) st : screen (trace (run h findCommonFoldersAndTags st)) = [::].
Proof.
case: st => [[|item items] cf ct fl] //=.
case: (inEvery _) => [|id ids] //=.
by case: (h (GetByIds (id :: ids))).
Qed.

Lemma findCommon_writes (h : host) st :
  all commonSetWrite (writes (trace (run h findCommonFoldersAndTags st))).
Proof.
case: st => [[|item items] cf ct fl] //=.
case: (inEvery _) => [|id ids] //=.
by case: (h (GetByIds (id :: ids))).
Qed.

Lemma findCommon_lookups (h : host) st :
  let lookups := calls (trace (run h findCommonFoldersAndTags st)) in
  size lookups <= 1 /\ all nonEmptyLookup lookups.
Proof.
move=> lookups; rewrite {}/lookups findCommon_calls.
by case: ifP => [/andP [_ Hn]|_] //=; rewrite Hn.
Qed.

(** X2. [findCommonFoldersAndTags] returns normally for every selection
    and every host, and assigns only [commonFolders] and [commonTags]:
    [selectedItems] and [isRefreshing] are as before. *)
Theorem findCommon_touches_only_common_sets (h : host) (st : State) :
  let o := run h findCommonFoldersAndTags st in
  [/\ value o = inr tt, all commonSetWrite (writes (trace o)),
      selectedItems (final o) = selectedItems st
    & isRefreshing (final o) = isRefreshing st].
Proof.
move=> o; split; first exact: findCommon_value.
- exact: findCommon_writes.
- rewrite /o; case Hsel: (selectedItems st) => [|item items].
    by rewrite findCommon_empty.
  by rewrite findCommon_final Hsel.
- rewrite /o; case Hsel: (selectedItems st) => [|item items].
    by rewrite findCommon_empty.
  by rewrite findCommon_final ?Hsel.
Qed.

(** X3. A run of [findCommonFoldersAndTags] asks the host for folders at
    most once, never for an empty list of identifiers, and when it does not
    ask, [commonFolders] is empty. *)
Theorem findCommon_looks_up_at_most_once (h : host) (st : State) :
  let lookups := calls (trace (run h findCommonFoldersAndTags st)) in
  size lookups <= 1 /\
  all nonEmptyLookup lookups /\
  (lookups = [::] -> commonFolders (final (run h findCommonFoldersAndTags st)) = [::]).
Proof.
move=> lookups; have [Hone Hall] := findCommon_lookups h st.
split=> //; split=> //; rewrite /lookups findCommon_calls.
case Hsel: (selectedItems st) => [|item items] /=.
  by rewrite findCommon_empty.
rewrite findCommon_final ?Hsel //= /resolved.
by case: ifP.
Qed.

Lemma findCommon_looks_up_at_most_once_witness :
  let a := mkItem "a" (Some [:: "f1"]) (Some [:: "x"]) in
  let b := mkItem "b" (Some [:: "f2"]) (Some [:: "x"]) in
  let st := mkState [:: a; b] [:: mkFolder "f1" "Work"] [::] false in
  let h := hostOf (inr (Some [:: a; b])) (fun ids => inl (errorWith "offline")) (inl (errorWith "unused")) in
  commonFolders (final (run h findCommonFoldersAndTags st)) = [::].
Proof.
move=> a b st h.
have [_ [_ Hnone]] := findCommon_looks_up_at_most_once h st.
exact: Hnone erefl.
Defined.

(** X4. With a single item selected, all of its tags are common, and all
    of its folders are the ones looked up. *)
Theorem findCommon_single_item (h : host) (st : State) (item : Item) :
  selectedItems st = [:: item] ->
  let o := run h findCommonFoldersAndTags st in
  [/\ commonTags (final o) = tagsOf item,
      commonFolders (final o) = resolved h (foldersOf item)
    & calls (trace o) =
      (if 0 < size (foldersOf item) then [:: GetByIds (foldersOf item)]
       else [::])].
Proof.
move=> Hsel o; rewrite /o findCommon_calls findCommon_final Hsel //=.
by rewrite /allFolders /allTags Hsel /= !inEvery_single.
Qed.

Lemma findCommon_single_item_witness :
  let a := mkItem "a" (Some [:: "f1"; "f2"]) (Some [:: "x"; "y"]) in
  let st := mkState [:: a] [::] [::] false in
  let h := hostOf (inr (Some [:: a])) (fun ids => inl (errorWith "offline")) (inl (errorWith "unused")) in
  let o := run h findCommonFoldersAndTags st in
  commonTags (final o) = [:: "x"; "y"] /\
  calls (trace o) = [:: GetByIds [:: "f1"; "f2"]].
Proof.
move=> a st h o.
by have [Htags _ Hcalls] := @findCommon_single_item h st a erefl.
Defined.

(** X5. Which folder identifiers and which tags are common does not
    depend on the order of the selected items (their order and
    multiplicity follow the first item). *)
Theorem findCommon_ignores_selection_order (h : host) (st st' : State) :
  0 < size (selectedItems st) ->
  perm_eq (selectedItems st) (selectedItems st') ->
  inEvery (allFolders st) =i inEvery (allFolders st') /\
  commonTags (final (run h findCommonFoldersAndTags st)) =i
  commonTags (final (run h findCommonFoldersAndTags st')).
Proof.
move=> Hsel Hperm.
have Hsel' : 0 < size (selectedItems st') by rewrite -(perm_size Hperm).
rewrite !findCommon_final //=; split; apply: inEvery_perm.
- by rewrite size_map.
- exact: perm_map.
- by rewrite size_map.
- exact: perm_map.
Qed.

Lemma findCommon_ignores_selection_order_witness :
  let a := mkItem "a" (Some [:: "f1"; "f2"]) (Some [:: "x"; "y"]) in
  let b := mkItem "b" (Some [:: "f2"; "f1"]) (Some [:: "y"; "x"]) in
  let st := mkState [:: a; b] [::] [::] false in
  let st' := mkState [:: b; a] [::] [::] false in
  let h := hostOf (inr (Some [:: a; b])) (fun ids => inl (errorWith "offline")) (inl (errorWith "unused")) in
  commonTags (final (run h findCommonFoldersAndTags st)) =i
  commonTags (final (run h findCommonFoldersAndTags st')).
Proof.
move=> a b st st' h.
have Hperm : perm_eq (selectedItems st) (selectedItems st') by vm_compute.
by have [] := @findCommon_ignores_selection_order h st st' erefl Hperm.
Defined.

(** X6. Selecting more items can only remove common folders and tags: the
    results for a larger selection are sub-lists of the results for the
    selection it extends. *)
Theorem findCommon_shrinks_with_selection
    (h : host) (st st' : State) (more : seq Item) :
  0 < size (selectedItems st) ->
  selectedItems st' = selectedItems st ++ more ->
  subseq (inEvery (allFolders st')) (inEvery (allFolders st)) /\
  subseq (commonTags (final (run h findCommonFoldersAndTags st')))
         (commonTags (final (run h findCommonFoldersAndTags st))).
Proof.
move=> Hsel Hmore.
have Hsel' : 0 < size (selectedItems st') by rewrite Hmore size_cat ltn_addr.
rewrite !findCommon_final //= /allFolders /allTags Hmore !map_cat.
by rewrite !inEvery_cat ?size_map //; split; apply: filter_subseq.
Qed.

Lemma findCommon_shrinks_with_selection_witness :
  let a := mkItem "a" (Some [:: "f1"; "f2"]) (Some [:: "x"; "y"]) in
  let b := mkItem "b" (Some [:: "f2"]) (Some [:: "y"]) in
  let st := mkState [:: a] [::] [::] false in
  let st' := mkState [:: a; b] [::] [::] false in
  let h := hostOf (inr (Some [:: a; b])) (fun ids => inl (errorWith "offline")) (inl (errorWith "unused")) in
  is_true (subseq (commonTags (final (run h findCommonFoldersAndTags st')))
                  (commonTags (final (run h findCommonFoldersAndTags st)))).
Proof.
move=> a b st st' h.
by have [] := @findCommon_shrinks_with_selection h st st' [:: b] erefl erefl.
Defined.

(** X7. When the first item lists no folder (resp. tag) twice, neither do
    the common folder identifiers (resp. [commonTags]). *)
Theorem findCommon_keeps_first_item_duplicate_free
    (h : host) (st : State) (first : Item) (rest : seq Item) :
  selectedItems st = first :: rest ->
  let o := run h findCommonFoldersAndTags st in
  (uniq (foldersOf first) -> uniq (inEvery (allFolders st))) /\
  (uniq (tagsOf first) -> uniq (commonTags (final o))).
Proof.
move=> Hsel o; rewrite /o findCommon_final ?Hsel //=.
by split=> Hu; apply: inEvery_uniq; rewrite /allFolders /allTags Hsel.
Qed.

Lemma findCommon_keeps_first_item_duplicate_free_witness :
  let a := mkItem "a" (Some [:: "f1"; "f2"]) (Some [:: "x"; "y"]) in
  let b := mkItem "b" (Some [:: "f2"; "f2"]) (Some [:: "y"; "y"]) in
  let st := mkState [:: a; b] [::] [::] false in
  let h := hostOf (inr (Some [:: a; b])) (fun ids => inl (errorWith "offline")) (inl (errorWith "unused")) in
  is_true (uniq (commonTags (final (run h findCommonFoldersAndTags st)))).
Proof.
move=> a b st h.
have [_ Htags] := @findCommon_keeps_first_item_duplicate_free h st a [:: b] erefl.
exact: Htags erefl.
Defined.

(** ** The paths of [refreshData] *)

Lemma refreshTry_changed (h : host) st (selection : option (seq Item)) :
  isRefreshing st = false -> h GetSelected = inr selection ->
  let new := orEmpty selection in
  ~~ perm_eq [seq item_id item | item <- selectedItems st]
             [seq item_id item | item <- new] ->
  0 < size new ->
  let o := run h refreshTry st in
  let st1 := selecting new st in
  let folders := resolved h (inEvery (allFolders st1)) in
  let tags := inEvery (allTags st1) in
  [/\ value o = inr tt, final o = mkState new folders tags true,
      calls (trace o) = GetSelected :: calls (trace (run h findCommonFoldersAndTags st1))
    & screen (trace o) =
      [:: LoadingIndicator true; ItemCount (size new)] ++
      (if foldersChanged (commonFolders st) folders
       then [:: DisplayFolders folders] else [::]) ++
      (if hasChanged (commonTags st) tags then [:: DisplayTags tags] else [::])].
Proof.
move=> Hfl Hh new Hperm Hnew o st1 folders tags.
rewrite {}/o /refreshTry.
have HV := findCommon_value h.
have HF := @findCommon_final h st1 Hnew.
have HS := findCommon_screen h st1.
rewrite -/folders -/tags in HF.
move: HV HF HS; move: findCommonFoldersAndTags => F HV HF HS.
rewrite /st1 /selecting in HF HS *.
case: st Hfl Hperm @st1 @folders @tags HF HS => sel cf ct fl /= -> Hperm HF HS.
rewrite Hh /= arraysEqualE jsSort_eq (negbTE Hperm) /= eqn0Ngt Hnew /=.
rewrite run_bind run_awaitAsync HV HF /hasChanged /foldersChanged /=.
move: HF HS; move: (resolved h _) (inEvery (allTags _)) => folders tags HF HS.
by case: (keysEqual _ (sortKeys [seq idOrSelf f | f <- folders]));
   case: (arraysEqual _ (jsSort tags)) => /=; split=> //;
   rewrite /screen /calls /outputs /= ?pmap_cat ?filter_cat /= -/(outputs _)
           -/(screen _) ?HS ?cats0.
Qed.

Lemma run_refreshFinally (h : host) s :
  run h refreshFinally s =
  mkOutcome (assign (SetIsRefreshing false) s)
    [:: Wrote (SetIsRefreshing false); Did (LoadingIndicator false)] (inr tt).
Proof. by []. Qed.

Lemma refresh_changed (h : host) st (selection : option (seq Item)) :
  isRefreshing st = false -> h GetSelected = inr selection ->
  let new := orEmpty selection in
  ~~ perm_eq [seq item_id item | item <- selectedItems st]
             [seq item_id item | item <- new] ->
  0 < size new ->
  let o := run h refreshData st in
  let st1 := selecting new st in
  let folders := resolved h (inEvery (allFolders st1)) in
  let tags := inEvery (allTags st1) in
  [/\ final o = mkState new folders tags false,
      calls (trace o) = GetSelected :: calls (trace (run h findCommonFoldersAndTags st1))
    & screen (trace o) =
      [:: LoadingIndicator true; ItemCount (size new)] ++
      (if foldersChanged (commonFolders st) folders
       then [:: DisplayFolders folders] else [::]) ++
      (if hasChanged (commonTags st) tags then [:: DisplayTags tags] else [::]) ++
      [:: LoadingIndicator false]].
Proof.
move=> Hfl Hh new Hperm Hnew o st1 folders tags.
have [Hv Hf Hc Hs] := refreshTry_changed Hfl Hh Hperm Hnew.
have Ho : run h refreshData st =
    mkOutcome (mkState new folders tags false)
      (trace (run h refreshTry st) ++
       [:: Wrote (SetIsRefreshing false); Did (LoadingIndicator false)])
      (inr tt).
  rewrite run_refreshData Hfl run_try_finally run_try_catch Hv; cbv zeta iota.
  by rewrite Hf run_refreshFinally [value _]/= Hv.
rewrite {}/o Ho; move: (trace (run h refreshTry st)) Hc Hs {Ho} => tr Hc Hs.
by split; rewrite /= ?calls_cat ?screen_cat ?Hc ?Hs ?cats0 -?catA.
Qed.

Lemma changed_to_empty st (selection : option (seq Item)) :
  ~~ perm_eq [seq item_id item | item <- selectedItems st]
             [seq item_id item | item <- orEmpty selection] ->
  orEmpty selection = [::] -> 0 < size (selectedItems st).
Proof. by move=> Hperm Hnew; move: Hperm; rewrite Hnew; case: (selectedItems st). Qed.

Lemma refresh_summary (h : host) st :
  isRefreshing st = false ->
  let o := run h refreshData st in
  exists middle lookups,
    [/\ calls (trace o) = GetSelected :: lookups,
        screen (trace o) =
          LoadingIndicator true :: rcons middle (LoadingIndicator false),
        size lookups <= 1, all nonEmptyLookup lookups
      & all (predC isIndicator) middle].
Proof.
move=> Hfl o; rewrite {}/o.
case Hh: (h GetSelected) => [e|selection].
  by rewrite (refresh_fetch_failed Hfl Hh); exists [::], [::].
case Hperm: (perm_eq [seq item_id item | item <- selectedItems st]
                     [seq item_id item | item <- orEmpty selection]).
  by rewrite (refresh_same_ids Hfl Hh Hperm); exists [::], [::].
move/negbT: Hperm => Hperm.
case Hnew: (orEmpty selection) => [|item items].
  rewrite (refresh_deselected Hfl Hh Hnew (changed_to_empty Hperm Hnew)).
  by exists [:: ItemCount 0; DisplayNoSelection], [::].
have Hsize : 0 < size (orEmpty selection) by rewrite Hnew.
have [_ -> ->] := refresh_changed Hfl Hh Hperm Hsize.
have [Hone Hall] := findCommon_lookups h (selecting (orEmpty selection) st).
set A := (if foldersChanged _ _ then [:: DisplayFolders _] else _).
set B := (if hasChanged _ _ then [:: DisplayTags _] else _).
exists (ItemCount (size (orEmpty selection)) :: A ++ B),
       (calls (trace (run h findCommonFoldersAndTags
                        (selecting (orEmpty selection) st)))).
split=> //; first by rewrite /= -cats1 -catA.
by rewrite /= all_cat /A /B; do 2![case: ifP => _ /=].
Qed.

(** X8. A refresh that is not dropped and fetches a non-empty selection
    whose identifiers are not a reordering of the previous ones stores that
    selection, sets [commonFolders] and [commonTags] to what is computed
    from it, resets the flag, and asks the host for the selection and then
    for the surviving folders, if any. *)
Theorem refresh_stores_fetched_selection
    (h : host) (st : State) (selection : option (seq Item)) :
  isRefreshing st = false ->
  h GetSelected = inr selection ->
  let new := orEmpty selection in
  ~~ perm_eq [seq item_id item | item <- selectedItems st]
             [seq item_id item | item <- new] ->
  0 < size new ->
  let o := run h refreshData st in
  let commonFolderIds := inEvery [seq foldersOf item | item <- new] in
  [/\ value o = inr tt,
      final o = mkState new (resolved h commonFolderIds)
                        (inEvery [seq tagsOf item | item <- new]) false
    & calls (trace o) =
      GetSelected ::
      (if 0 < size commonFolderIds then [:: GetByIds commonFolderIds] else [::])].
Proof.
move=> Hfl Hh new Hperm Hnew o ids.
have [Hf Hc _] := refresh_changed Hfl Hh Hperm Hnew.
split; [exact: refresh_value | exact: Hf |].
by rewrite Hc findCommon_calls /= Hnew.
Qed.

Lemma refresh_stores_fetched_selection_witness :
  let a := mkItem "a" (Some [:: "f1"; "f2"]) (Some [:: "x"]) in
  let b := mkItem "b" (Some [:: "f2"]) (Some [:: "x"; "y"]) in
  let st := mkState [:: a] [:: mkFolder "f1" "One"] [:: "x"] false in
  let h := hostOf (inr (Some [:: a; b]))
                  (fun ids => inr [seq mkFolder id "Two" | id <- ids])
                  (inl (errorWith "unused")) in
  final (run h refreshData st) =
  mkState [:: a; b] [:: mkFolder "f2" "Two"] [:: "x"] false.
Proof.
move=> a b st h.
by have [_ -> _] :=
  @refresh_stores_fetched_selection h st (Some [:: a; b]) erefl erefl erefl erefl.
Defined.

(** X9. In such a refresh the item count is shown; the folder badges are
    rebuilt exactly when a folder object, previous or current, has an empty
    [id] (the test then compares the objects themselves, which differ) or
    the common folder identifiers are not a reordering of the previous
    ones; the tag badges are rebuilt exactly when the common tags are not a
    reordering of the previous ones, each independently of the other. *)
Theorem refresh_renders_only_changes
    (h : host) (st : State) (selection : option (seq Item)) :
  isRefreshing st = false ->
  h GetSelected = inr selection ->
  let new := orEmpty selection in
  ~~ perm_eq [seq item_id item | item <- selectedItems st]
             [seq item_id item | item <- new] ->
  0 < size new ->
  let o := run h refreshData st in
  let folders := commonFolders (final o) in
  let tags := commonTags (final o) in
  screen (trace o) =
    [:: LoadingIndicator true; ItemCount (size new)] ++
    (if has noId (commonFolders st ++ folders)
        || ~~ perm_eq [seq folder_id f | f <- commonFolders st]
                      [seq folder_id f | f <- folders]
     then [:: DisplayFolders folders] else [::]) ++
    (if perm_eq (commonTags st) tags then [::] else [:: DisplayTags tags]) ++
    [:: LoadingIndicator false].
Proof.
move=> Hfl Hh new Hperm Hnew o folders tags.
have [Hf _ Hs] := refresh_changed Hfl Hh Hperm Hnew.
rewrite /folders /tags /o Hf Hs /= hasChangedE foldersChangedE.
by case: (perm_eq (commonTags st) _).
Qed.

(** A second item is selected: the common folder changes, the common tag
    does not. Then a folder object with an empty [id]: the same folder is
    common before and after, and its badge is rebuilt all the same. *)
Lemma refresh_renders_only_changes_witness :
  let a := mkItem "a" (Some [:: "f1"; "f2"]) (Some [:: "x"]) in
  let b := mkItem "b" (Some [:: "f2"]) (Some [:: "x"; "y"]) in
  let st := mkState [:: a] [:: mkFolder "f1" "One"] [:: "x"] false in
  let h := hostOf (inr (Some [:: a; b]))
                  (fun ids => inr [seq mkFolder id "Two" | id <- ids])
                  (inl (errorWith "unused")) in
  let c := mkItem "c" (Some [:: ""]) (Some [:: "x"]) in
  let d := mkItem "d" (Some [:: ""]) (Some [:: "x"]) in
  let st' := mkState [:: c] [:: mkFolder "" "Two"] [:: "x"] false in
  let h' := hostOf (inr (Some [:: c; d]))
                   (fun ids => inr [seq mkFolder id "Two" | id <- ids])
                   (inl (errorWith "unused")) in
  screen (trace (run h refreshData st)) =
  [:: LoadingIndicator true; ItemCount 2;
      DisplayFolders [:: mkFolder "f2" "Two"]; LoadingIndicator false] /\
  screen (trace (run h' refreshData st')) =
  [:: LoadingIndicator true; ItemCount 2;
      DisplayFolders [:: mkFolder "" "Two"]; LoadingIndicator false].
Proof.
move=> a b st h c d st' h'.
by rewrite (@refresh_renders_only_changes h st (Some [:: a; b])
              erefl erefl erefl erefl)
           (@refresh_renders_only_changes h' st' (Some [:: c; d])
              erefl erefl erefl erefl).
Defined.

(** X10. Against the same host, a second refresh changes nothing: the
    state is the one left by the first, and nothing but the loading
    indicator reaches the screen. *)
Theorem refresh_twice_is_refresh_once (h : host) (st : State) :
  isRefreshing st = false ->
  let st' := final (run h refreshData st) in
  let again := run h refreshData st' in
  final again = st' /\
  screen (trace again) = [:: LoadingIndicator true; LoadingIndicator false].
Proof.
move=> Hfl st' again.
have Hfl' : isRefreshing st' = false by have [] := refresh_completes h Hfl.
rewrite /again.
case Hh: (h GetSelected) => [e|selection].
  by rewrite (refresh_fetch_failed Hfl' Hh).
suff Hperm : perm_eq [seq item_id item | item <- selectedItems st']
                     [seq item_id item | item <- orEmpty selection].
  by rewrite (refresh_same_ids Hfl' Hh Hperm).
rewrite /st'.
case Hperm: (perm_eq [seq item_id item | item <- selectedItems st]
                     [seq item_id item | item <- orEmpty selection]).
  by rewrite (refresh_same_ids Hfl Hh Hperm).
move/negbT: Hperm => Hperm.
case Hnew: (orEmpty selection) => [|item items].
  by rewrite (refresh_deselected Hfl Hh Hnew (changed_to_empty Hperm Hnew)).
have Hsize : 0 < size (orEmpty selection) by rewrite Hnew.
have [-> _ _] := refresh_changed Hfl Hh Hperm Hsize.
by rewrite /= Hnew.
Qed.

Lemma refresh_twice_is_refresh_once_witness :
  let a := mkItem "a" (Some [:: "f1"]) (Some [:: "x"]) in
  let st := mkState [::] [::] [::] false in
  let h := hostOf (inr (Some [:: a])) (fun ids => inl (errorWith "offline")) (inl (errorWith "unused")) in
  let st' := final (run h refreshData st) in
  final (run h refreshData st') = st'.
Proof.
move=> a st h st'.
by have [] := @refresh_twice_is_refresh_once h st erefl.
Defined.

(** X11. [refreshData] never throws. A dropped invocation calls nothing;
    any other asks for the selection first and then looks folders up at
    most once, for at least one identifier. *)
Theorem refresh_asks_selection_then_one_lookup (h : host) (st : State) :
  let o := run h refreshData st in
  value o = inr tt /\
  (isRefreshing st -> calls (trace o) = [::]) /\
  (isRefreshing st = false ->
   exists lookups,
     [/\ calls (trace o) = GetSelected :: lookups, size lookups <= 1
       & all nonEmptyLookup lookups]).
Proof.
move=> o; split; first exact: refresh_value.
split=> [Hfl|Hfl]; first by rewrite /o (refresh_busy h Hfl).
have [middle [lookups [Hc _ Hone Hall _]]] := refresh_summary h Hfl.
by exists lookups.
Qed.

Lemma refresh_asks_selection_then_one_lookup_witness :
  let a := mkItem "a" (Some [:: "f1"]) (Some [:: "x"]) in
  let busy := mkState [:: a] [::] [::] true in
  let idle := mkState [::] [::] [::] false in
  let h := hostOf (inr (Some [:: a])) (fun ids => inl (errorWith "offline")) (inl (errorWith "unused")) in
  calls (trace (run h refreshData busy)) = [::] /\
  exists lookups,
    [/\ calls (trace (run h refreshData idle)) = GetSelected :: lookups,
        size lookups <= 1 & all nonEmptyLookup lookups].
Proof.
move=> a busy idle h.
have [_ [Hbusy _]] := refresh_asks_selection_then_one_lookup h busy.
have [_ [_ Hidle]] := refresh_asks_selection_then_one_lookup h idle.
by split; [exact: Hbusy | exact: Hidle].
Defined.

(** X12. On every path of a refresh that is not dropped, failures
    included, the loading indicator is shown first and hidden last, and not
    touched in between; a dropped invocation shows nothing. *)
Theorem refresh_shows_then_hides_indicator (h : host) (st : State) :
  let o := run h refreshData st in
  (isRefreshing st -> screen (trace o) = [::]) /\
  (isRefreshing st = false ->
   exists middle,
     screen (trace o) =
       LoadingIndicator true :: rcons middle (LoadingIndicator false) /\
     all (predC isIndicator) middle).
Proof.
move=> o; split=> [Hfl|Hfl]; first by rewrite /o (refresh_busy h Hfl).
have [middle [lookups [_ Hs _ _ Hmid]]] := refresh_summary h Hfl.
by exists middle.
Qed.

Lemma refresh_shows_then_hides_indicator_witness :
  let a := mkItem "a" (Some [:: "f1"]) (Some [:: "x"]) in
  let busy := mkState [:: a] [::] [::] true in
  let idle := mkState [::] [::] [::] false in
  let h := hostOf (inl (errorWith "offline")) (fun ids => inl (errorWith "offline")) (inl (errorWith "unused")) in
  screen (trace (run h refreshData busy)) = [::] /\
  exists middle,
    screen (trace (run h refreshData idle)) =
      LoadingIndicator true :: rcons middle (LoadingIndicator false) /\
    all (predC isIndicator) middle.
Proof.
move=> a busy idle h.
have [Hbusy _] := refresh_shows_then_hides_indicator h busy.
have [_ Hidle] := refresh_shows_then_hides_indicator h idle.
by split; [exact: Hbusy | exact: Hidle].
Defined.

(** X13. When the selection becomes empty, the refresh shows an item
    count of 0 and the no-selection placeholders, looks no folder up, and
    assigns neither [commonFolders] nor [commonTags]. *)
Theorem refresh_deselecting_shows_placeholders
    (h : host) (st : State) (selection : option (seq Item)) :
  isRefreshing st = false ->
  h GetSelected = inr selection ->
  orEmpty selection = [::] ->
  0 < size (selectedItems st) ->
  let o := run h refreshData st in
  [/\ final o = mkState [::] (commonFolders st) (commonTags st) false,
      calls (trace o) = [:: GetSelected]
    & screen (trace o) =
      [:: LoadingIndicator true; ItemCount 0; DisplayNoSelection;
          LoadingIndicator false]].
Proof.
by move=> Hfl Hh Hnew Hold o; rewrite /o (refresh_deselected Hfl Hh Hnew Hold).
Qed.

Lemma refresh_deselecting_shows_placeholders_witness :
  let a := mkItem "a" (Some [:: "f1"]) (Some [:: "x"]) in
  let st := mkState [:: a] [:: mkFolder "f1" "One"] [:: "x"] false in
  let h := hostOf (inr None) (fun ids => inl (errorWith "offline")) (inl (errorWith "unused")) in
  screen (trace (run h refreshData st)) =
  [:: LoadingIndicator true; ItemCount 0; DisplayNoSelection;
      LoadingIndicator false].
Proof.
move=> a st h.
by have [_ _ ->] :=
  @refresh_deselecting_shows_placeholders h st None erefl erefl erefl erefl.
Defined.

(** ** More on the swap handlers *)

(** X14. A swap handler throws in one case only: when the host rejects the
    swap with [null] or [undefined], reading the message of the rejection
    in the [catch] block raises a [TypeError], which the handler throws. In
    every other case, whatever the host does, the handler returns normally;
    and [swapTagToFolder] does nothing at all for the empty tag name. *)
Theorem swap_handlers_throw_only_on_nullish_rejection (h : host) (st : State) :
  (forall tagName,
     value (run h (swapTagToFolder tagName) st) =
     if tagName == "" then inr tt
     else match h (SwapTagToFolder tagName (selectedItems st)) with
          | inl (Nullish complaint) => inl (errorWith complaint)
          | _ => inr tt
          end) /\
  (forall folder,
     value (run h (swapFolderToTag folder) st) =
     match h (SwapFolderToTag folder (selectedItems st)) with
     | inl (Nullish complaint) => inl (errorWith complaint)
     | _ => inr tt
     end) /\
  run h (swapTagToFolder "") st = mkOutcome st [::] (inr tt).
Proof.
split=> [tagName|]; last split=> [folder|] //.
- case: ifP => [/eqP -> //|/negbT Htag].
  case Hh: (h _) => [e|result].
    by rewrite /swapTagToFolder (negbTE Htag) /= Hh; case: e {Hh} => [c|[m|]].
  by rewrite (run_swapTagToFolder Htag Hh) /= refresh_value.
- case Hh: (h _) => [e|result].
    by rewrite /swapFolderToTag /= Hh; case: e {Hh} => [c|[m|]].
  by rewrite (run_swapFolderToTag Hh) /= refresh_value.
Qed.

(** X15. When the host rejects the swap, the handler logs the rejection and
    stops: the state is untouched and no refresh is started. If the
    rejection is a value with a message, the failure dialog shows that
    message; if it is a value without one, the dialog shows the text
    [undefined]; if it is [null] or [undefined], no dialog is shown and the
    handler throws the [TypeError] of reading its message. *)
Theorem swap_rejection_is_reported (h : host) (st : State) (e : error) :
  (forall tagName,
     tagName != "" ->
     h (SwapTagToFolder tagName (selectedItems st)) = inl e ->
     let attempt :=
       [:: Did FoldersProcessing;
           Called (SwapTagToFolder tagName (selectedItems st));
           Did (ConsoleError "Error in swapTagToFolder:" e)] in
     run h (swapTagToFolder tagName) st =
     match e with
     | Nullish complaint => mkOutcome st attempt (inl (errorWith complaint))
     | Thrown message =>
         mkOutcome st
           (attempt ++
            [:: Did (Alert (String.append
                              "Swap Failed: Failed to swap tag to folder: "
                              (if message is Some text then text
                               else "undefined")))])
           (inr tt)
     end) /\
  (forall folder,
     h (SwapFolderToTag folder (selectedItems st)) = inl e ->
     let attempt :=
       [:: Did TagsProcessing;
           Called (SwapFolderToTag folder (selectedItems st));
           Did (ConsoleError "Error in swapFolderToTag:" e)] in
     run h (swapFolderToTag folder) st =
     match e with
     | Nullish complaint => mkOutcome st attempt (inl (errorWith complaint))
     | Thrown message =>
         mkOutcome st
           (attempt ++
            [:: Did (Alert (String.append
                              "Swap Failed: Failed to swap folder to tag: "
                              (if message is Some text then text
                               else "undefined")))])
           (inr tt)
     end).
Proof.
split=> [tagName /negbTE Htag Hh attempt|folder Hh attempt]; rewrite {}/attempt.
- by rewrite /swapTagToFolder Htag /= Hh; case: e {Hh} => [c|[m|]].
- by rewrite /swapFolderToTag /= Hh; case: e {Hh} => [c|[m|]].
Qed.

(** A rejection with a message, one without, and a rejection with [null]. *)
Lemma swap_rejection_is_reported_witness :
  let a := mkItem "a" (Some [:: "f1"]) (Some [:: "x"]) in
  let st := mkState [:: a] [:: mkFolder "f1" "One"] [:: "x"] false in
  let lookup := fun ids : seq ident => @inl error (seq Folder) (errorWith "offline") in
  let locked := hostOf (inr (Some [:: a])) lookup (inl (errorWith "locked")) in
  let bare := hostOf (inr (Some [:: a])) lookup (inl (Thrown None)) in
  let null := hostOf (inr (Some [:: a])) lookup (inl (Nullish "no message")) in
  [/\ outputs (trace (run locked (swapTagToFolder "x") st)) =
        [:: FoldersProcessing;
            ConsoleError "Error in swapTagToFolder:" (errorWith "locked");
            Alert "Swap Failed: Failed to swap tag to folder: locked"],
      outputs (trace (run bare (swapFolderToTag (mkFolder "f1" "One")) st)) =
        [:: TagsProcessing;
            ConsoleError "Error in swapFolderToTag:" (Thrown None);
            Alert "Swap Failed: Failed to swap folder to tag: undefined"]
    & run null (swapTagToFolder "x") st =
      mkOutcome st
        [:: Did FoldersProcessing; Called (SwapTagToFolder "x" [:: a]);
            Did (ConsoleError "Error in swapTagToFolder:" (Nullish "no message"))]
        (inl (errorWith "no message"))].
Proof.
move=> a st lookup locked bare null.
have [Hlocked _] := swap_rejection_is_reported locked st (errorWith "locked").
have [_ Hbare] := swap_rejection_is_reported bare st (Thrown None).
have [Hnull _] := swap_rejection_is_reported null st (Nullish "no message").
by rewrite (Hlocked "x" erefl erefl) (Hbare (mkFolder "f1" "One") erefl)
           (Hnull "x" erefl erefl).
Defined.

(** X16. The reentrancy flag does not hold a swap back: with
    [isRefreshing] set, the swap is still asked of the host and its outcome
    shown; only the refresh that follows is dropped. *)
Theorem swap_during_refresh_is_not_held_back
    (h : host) (st : State) (result : SwapResult) :
  isRefreshing st ->
  (forall tagName,
     tagName != "" ->
     h (SwapTagToFolder tagName (selectedItems st)) = inr result ->
     run h (swapTagToFolder tagName) st =
     mkOutcome st
       [:: Did FoldersProcessing;
           Called (SwapTagToFolder tagName (selectedItems st));
           Did (Alert (tagSwapMessage tagName result));
           Did (ConsoleLog "Refresh already in progress, skipping")]
       (inr tt)) /\
  (forall folder,
     h (SwapFolderToTag folder (selectedItems st)) = inr result ->
     run h (swapFolderToTag folder) st =
     mkOutcome st
       [:: Did TagsProcessing;
           Called (SwapFolderToTag folder (selectedItems st));
           Did (Alert (folderSwapMessage folder result));
           Did (ConsoleLog "Refresh already in progress, skipping")]
       (inr tt)).
Proof.
move=> Hfl; split=> [tagName Htag Hh|folder Hh].
- by rewrite (run_swapTagToFolder Htag Hh) (refresh_busy h Hfl).
- by rewrite (run_swapFolderToTag Hh) (refresh_busy h Hfl).
Qed.

Lemma swap_during_refresh_is_not_held_back_witness :
  let a := mkItem "a" (Some [:: "f1"]) (Some [:: "x"]) in
  let st := mkState [:: a] [:: mkFolder "f1" "One"] [:: "x"] true in
  let done := mkSwapResult true 1 [::] in
  let h := hostOf (inr (Some [:: a])) (fun ids => inl (errorWith "offline")) (inr done) in
  calls (trace (run h (swapTagToFolder "x") st)) = [:: SwapTagToFolder "x" [:: a]] /\
  final (run h (swapFolderToTag (mkFolder "f1" "One")) st) = st.
Proof.
move=> a st done h.
have [Htag Hfolder] := @swap_during_refresh_is_not_held_back h st done erefl.
by rewrite (Htag "x" erefl erefl) (Hfolder (mkFolder "f1" "One") erefl).
Defined.

(** X17. When the host reports the same selected identifiers after a
    swap, the handler leaves [selectedItems], [commonFolders] and
    [commonTags] as they were before the swap, and nothing is rendered
    after the processing placeholder and the dialog. *)
Theorem swap_with_same_selection_rerenders_nothing
    (h : host) (st : State) (result : SwapResult)
    (selection : option (seq Item)) :
  isRefreshing st = false ->
  h GetSelected = inr selection ->
  perm_eq [seq item_id item | item <- selectedItems st]
          [seq item_id item | item <- orEmpty selection] ->
  (forall tagName,
     tagName != "" ->
     h (SwapTagToFolder tagName (selectedItems st)) = inr result ->
     let o := run h (swapTagToFolder tagName) st in
     final o = st /\
     screen (trace o) =
       [:: FoldersProcessing; Alert (tagSwapMessage tagName result);
           LoadingIndicator true; LoadingIndicator false]) /\
  (forall folder,
     h (SwapFolderToTag folder (selectedItems st)) = inr result ->
     let o := run h (swapFolderToTag folder) st in
     final o = st /\
     screen (trace o) =
       [:: TagsProcessing; Alert (folderSwapMessage folder result);
           LoadingIndicator true; LoadingIndicator false]).
Proof.
move=> Hfl Hsel Hperm; split=> [tagName Htag Hh o|folder Hh o]; rewrite {}/o.
- by rewrite (run_swapTagToFolder Htag Hh) (refresh_same_ids Hfl Hsel Hperm).
- by rewrite (run_swapFolderToTag Hh) (refresh_same_ids Hfl Hsel Hperm).
Qed.

Lemma swap_with_same_selection_rerenders_nothing_witness :
  let a := mkItem "a" (Some [:: "f1"]) (Some [:: "x"]) in
  let a' := mkItem "a" (Some [:: "f1"; "x"]) (Some [::]) in
  let st := mkState [:: a] [:: mkFolder "f1" "One"] [:: "x"] false in
  let done := mkSwapResult true 1 [::] in
  let h := hostOf (inr (Some [:: a'])) (fun ids => inl (errorWith "offline")) (inr done) in
  final (run h (swapTagToFolder "x") st) = st /\
  final (run h (swapFolderToTag (mkFolder "f1" "One")) st) = st.
Proof.
move=> a a' st done h.
have [Htag Hfolder] :=
  @swap_with_same_selection_rerenders_nothing h st done (Some [:: a'])
    erefl erefl erefl.
have [Ht _] := Htag "x" erefl erefl.
have [Hf _] := Hfolder (mkFolder "f1" "One") erefl.
by split.
Defined.

(** ** Start-up *)

(** X18. [setupStateListeners] registers the ['itemChange'] callback,
    starts the 2 s monitoring only if the registration succeeded, and
    installs the 5 s polling interval, logging the error, exactly when the
    registration or the monitoring fails. *)
Theorem setup_polls_exactly_when_listening_fails (l : listeners) :
  let evs := setupStateListeners l in
  let registering := l (RegisterCallback "itemChange" itemChangeCallback) in
  let monitoring := l (StartItemMonitoring 2000) in
  [/\ registrations evs = [:: "itemChange"],
      monitorings evs = (if registering is None then [:: 2000] else [::]),
      intervals evs =
        (if registering is None then
           if monitoring is None then [::] else [:: 5000]
         else [:: 5000])
    & setupErrors evs =
        (if registering is Some e then [:: e]
         else if monitoring is Some e then [:: e] else [::])].
Proof.
rewrite /setupStateListeners /=.
by case: (l _) => [e|] /=; last case: (l _) => [e|] /=.
Qed.

(** X19. Start-up never fails: the shell is rendered, one refresh runs
    from the initial state, and the listeners are set up whatever that
    refresh met. Afterwards the state holds the fetched selection with its
    common sets, or is the initial state when the fetch failed or nothing
    is selected. *)
Theorem plugin_starts_with_a_refresh (h : host) (l : listeners) :
  let b := plugin h l in
  let o := run h refreshData initialState in
  [/\ bootValue b = inr tt,
      bootEvents b =
        Console (ConsoleLog "Swap Type plugin loaded") :: RenderShell ::
        [seq Handled ev | ev <- trace o] ++ setupStateListeners l
    & bootState b =
        match h GetSelected with
        | inr selection =>
            let new := orEmpty selection in
            if 0 < size new then
              mkState new (resolved h (inEvery [seq foldersOf item | item <- new]))
                      (inEvery [seq tagsOf item | item <- new]) false
            else initialState
        | inl _ => initialState
        end].
Proof.
move=> b o.
have Hv : value o = inr tt by exact: refresh_value.
suff Hfinal : final o =
    match h GetSelected with
    | inr selection =>
        let new := orEmpty selection in
        if 0 < size new then
          mkState new (resolved h (inEvery [seq foldersOf item | item <- new]))
                  (inEvery [seq tagsOf item | item <- new]) false
        else initialState
    | inl _ => initialState
    end.
  by rewrite /b /plugin /initializeUI -/o Hv; split=> //; rewrite -Hfinal.
rewrite /o; case Hh: (h GetSelected) => [e|selection].
  by rewrite (@refresh_fetch_failed h initialState e erefl Hh).
case Hnew: (orEmpty selection) => [|item items].
  by rewrite (@refresh_same_ids h initialState selection erefl Hh) ?Hnew.
have Hsize : 0 < size (orEmpty selection) by rewrite Hnew.
have Hperm : ~~ perm_eq [seq item_id i | i <- selectedItems initialState]
                        [seq item_id i | i <- orEmpty selection].
  by rewrite Hnew /= perm_sym; apply/perm_nilP.
have [-> _ _] := @refresh_changed h initialState selection erefl Hh Hperm Hsize.
by rewrite Hnew.
Qed.
